(** * face_rec_rk3588: resource pool, stream pipeline and stream manager

    A shallow embedding of [app/core/model_manager.py],
    [app/core/image_utils.py], [app/core/pipeline.py],
    [app/service/stream_manager_service.py],
    [app/service/face_operation_service.py] and the search of
    [app/service/face_dao.py].

    Conventions.
    - A [queue.Queue(maxsize=n)] is a list, oldest element first.  [put_nowait]
      raises [queue.Full] when the list already has [n] elements; a blocking
      [put] can only take its step when there is room; [get] on an empty queue
      ends in [queue.Empty].
    - Threads are program counters over the statements of the source; one
      step of a thread is one statement, or the statements between two
      operations on a shared queue.  An interleaving is a list of actors,
      each performing its next step.
    - Calls into OpenCV, the inference runtime and the face store are
      parameters or oracles: their result is an input of the step. *)

From stdpp Require Import base list strings gmap.
From Stdlib Require Import ZArith QArith Qround Lia.

Open Scope nat_scope.

(** ** app/core/model_manager.py *)

Module ModelManager.

(** A DeGirum model handle, as far as the pool is concerned, is an identity. *)
Definition DeGirumModel := nat.

(** [Tuple[DeGirumModel, DeGirumModel]]: detection model, recognition model. *)
Definition ResourceSet := (DeGirumModel * DeGirumModel)%type.

(** [ModelPool]: [self.pool_size] and [self._pool = queue.Queue(maxsize=pool_size)]. *)
Record ModelPool := {
  pool_size : nat;
  _pool : list ResourceSet;
}.

Definition qsize (p : ModelPool) : nat := length (_pool p).

(** [ModelPool.__init__], lines 34-55.  [create i] is the pair of
    [create_degirum_model] calls of iteration [i]; [None] is the exception
    that [__init__] re-raises. *)
Fixpoint load_sets (create : nat -> option ResourceSet) (i n : nat)
  : option (list ResourceSet) :=
  match n with
  | O => Some []
  | S n' =>
      match create i with
      | None => None
      | Some m =>
          match load_sets create (S i) n' with
          | None => None
          | Some rest => Some (m :: rest)
          end
      end
  end.

Definition init (create : nat -> option ResourceSet) (size : nat) : option ModelPool :=
  match load_sets create 0 size with
  | None => None
  | Some sets => Some {| pool_size := size; _pool := sets |}
  end.

(** [ModelPool.acquire], lines 57-68: [self._pool.get(timeout=timeout)].
    The result [None] is the [queue.Empty] branch: no set became available
    before the deadline. *)
Definition acquire (p : ModelPool) : option ResourceSet * ModelPool :=
  match _pool p with
  | [] => (None, p)
  | m :: rest => (Some m, {| pool_size := pool_size p; _pool := rest |})
  end.

(** [ModelPool.release], lines 70-74: [self._pool.put(models)], a blocking
    put.  [None] means the caller is blocked because the queue is full. *)
Definition release (m : ResourceSet) (p : ModelPool) : option ModelPool :=
  if decide (qsize p < pool_size p)
  then Some {| pool_size := pool_size p; _pool := _pool p ++ [m] |}
  else None.

(** *** Clients of the pool

    The pool does not record who holds which set.  [holders] is the
    bookkeeping of the callers: the sets handed out by [acquire] and not yet
    given back. *)
Record PoolState := {
  pool : ModelPool;
  holders : list ResourceSet;
}.

Inductive PoolCall :=
| CallAcquire
| CallRelease (m : ResourceSet).

Fixpoint remove_one (m : ResourceSet) (l : list ResourceSet) : list ResourceSet :=
  match l with
  | [] => []
  | x :: l' => if decide (x = m) then l' else x :: remove_one m l'
  end.

(** A release is legal when the set is currently checked out. *)
Definition legal (c : PoolCall) (s : PoolState) : Prop :=
  match c with
  | CallAcquire => True
  | CallRelease m => m ∈ holders s
  end.

(** The effect of one call, at the moment the queue operation takes place.
    [None]: the call cannot take effect in this state (a release that finds
    the queue full stays blocked). *)
Definition pool_call (c : PoolCall) (s : PoolState) : option PoolState :=
  match c with
  | CallAcquire =>
      match acquire (pool s) with
      | (Some m, p') => Some {| pool := p'; holders := m :: holders s |}
      | (None, p') => Some {| pool := p'; holders := holders s |}
      end
  | CallRelease m =>
      match release m (pool s) with
      | Some p' => Some {| pool := p'; holders := remove_one m (holders s) |}
      | None => None
      end
  end.

Definition checked_out (s : PoolState) : nat := length (holders s).
Definition available (s : PoolState) : nat := qsize (pool s).
Definition capacity (s : PoolState) : nat := pool_size (pool s).

Definition pool_inv (s : PoolState) : Prop :=
  checked_out s + available s = capacity s.

#[global] Instance legal_dec c s : Decision (legal c s).
Proof. destruct c; simpl; apply _. Defined.

(** An interleaving of calls, taken in the order in which the queue
    operations take effect.  [None]: some release was not legal, or could not
    take effect. *)
Fixpoint pool_run (calls : list PoolCall) (s : PoolState) : option PoolState :=
  match calls with
  | [] => Some s
  | c :: rest =>
      if decide (legal c s) then
        match pool_call c s with
        | Some s1 => pool_run rest s1
        | None => None
        end
      else None
  end.

Definition fresh_state (p : ModelPool) : PoolState :=
  {| pool := p; holders := [] |}.

End ModelManager.

(** ** Exceptions and results *)

Inductive Exn :=
| AssertionError
| ValueError
| IndexError
| CvError          (* cv2.error raised inside an OpenCV call *)
| RuntimeError.    (* raised by the inference runtime or the face store *)

Inductive Result (A : Type) :=
| Ok (a : A)
| Raise (e : Exn).
Arguments Ok {A} a.
Arguments Raise {A} e.

Definition bind {A B} (r : Result A) (k : A -> Result B) : Result B :=
  match r with
  | Ok a => k a
  | Raise e => Raise e
  end.

Definition of_option {A} (e : Exn) (o : option A) : Result A :=
  match o with
  | Some a => Ok a
  | None => Raise e
  end.

(** ** app/core/image_utils.py *)

Module ImageUtils.

(** An image array of shape (height, width, channels).  Pixels are read
    through [pixel row col channel]. *)
Record ndarray := {
  height : Z;
  width : Z;
  channels : Z;
  pixel : Z -> Z -> Z -> Z;
}.

(** [arr.size] *)
Definition size (a : ndarray) : Z := height a * width a * channels a.

Definition Point := (Q * Q)%type.
Definition Matrix := list (list Q).

(** [np.zeros((h, w, c), dtype=np.uint8)]; negative dimensions raise
    [ValueError]. *)
Definition np_zeros (h w c : Z) : Result ndarray :=
  if decide (0 <= h /\ 0 <= w /\ 0 <= c)%Z
  then Ok {| height := h; width := w; channels := c; pixel := fun _ _ _ => 0%Z |}
  else Raise ValueError.

(** [np.zeros((2, 3), dtype=np.float32)] *)
Definition zeros_2x3 : Matrix := [[0; 0; 0]; [0; 0; 0]]%Q.

(** Lines 52-61. *)
Definition _arcface_ref_kps : list Point :=
  [ (38.2946, 51.6963);
    (73.5318, 51.5014);
    (56.0252, 71.7366);
    (41.5493, 92.3655);
    (70.7299, 92.2041) ]%Q.

(** Lines 70-75: the pair (ratio, diff_x).  Python's [%] with a positive
    right operand is [Z.modulo]. *)
Definition ratio_and_diff_x (image_size : Z) : Q * Q :=
  if decide (image_size mod 112 = 0)%Z
  then (inject_Z image_size / 112, 0)%Q
  else let ratio := (inject_Z image_size / 128)%Q in (ratio, 8 * ratio)%Q.

(** Lines 78-79: [dst = _arcface_ref_kps * ratio; dst[:, 0] += diff_x]. *)
Definition dst (image_size : Z) : list Point :=
  let '(ratio, diff_x) := ratio_and_diff_x image_size in
  map (fun p : Point => (fst p * ratio + diff_x, snd p * ratio)%Q) _arcface_ref_kps.

(** [np.all(inliers)] *)
Definition np_all (inliers : list bool) : bool := forallb id inliers.

Section AlignAndCrop.

(** [cv2.estimateAffinePartial2D(src, dst, ransacReprojThreshold=1000)]:
    the matrix and the inlier mask ([None] when there is none). *)
Variable estimateAffinePartial2D : list Point -> list Point -> Matrix * option (list bool).

(** [cv2.warpAffine(img, M, (w, h), borderValue=0.0)]; [None] is a
    [cv2.error]. *)
Variable warpAffine : ndarray -> Matrix -> Z * Z -> option ndarray.

(** Line 85: [inliers is None or not np.all(inliers)]. *)
Definition degenerate (inliers : option (list bool)) : bool :=
  match inliers with
  | None => true
  | Some mask => negb (np_all mask)
  end.

(** [align_and_crop], lines 36-91. *)
Definition align_and_crop (img : ndarray) (landmarks : list Point) (image_size : Z)
  : Result (ndarray * Matrix) :=
  if negb (length landmarks =? 5)%nat then Raise AssertionError
  else if negb ((image_size mod 112 =? 0)%Z || (image_size mod 128 =? 0)%Z)
  then Raise AssertionError
  else
    let '(M, inliers) := estimateAffinePartial2D landmarks (dst image_size) in
    if degenerate inliers
    then bind (np_zeros image_size image_size 3) (fun z => Ok (z, zeros_2x3))
    else bind (of_option CvError (warpAffine img M (image_size, image_size)))
              (fun aligned => Ok (aligned, M)).

(** OpenCV's contract for [warpAffine]: with a positive [dsize = (w, h)]
    the result has [h] rows and [w] columns. *)
Definition warp_has_dsize : Prop :=
  forall img M w h out,
    (0 < w)%Z -> (0 < h)%Z -> warpAffine img M (w, h) = Some out ->
    height out = h /\ width out = w.

End AlignAndCrop.

(** The all-zero image of side [n]: [np.zeros((n, n, 3), dtype=np.uint8)]. *)
Definition zero_image (n : Z) : ndarray :=
  {| height := n; width := n; channels := 3; pixel := fun _ _ _ => 0%Z |}.

End ImageUtils.

(** ** queue.Queue *)

Module Queue.

(** Every queue of the pipeline is built with [maxsize=30]
    (pipeline.py lines 44-46, stream_manager_service.py line 38). *)
Definition maxsize : nat := 30.

Definition full {A} (q : list A) : bool := bool_decide (maxsize <= length q).

(** [q.put_nowait(x)]: [None] is [queue.Full].  The blocking [q.put(x)] is
    the same function, where [None] means that the caller has to wait. *)
Definition put_nowait {A} (x : A) (q : list A) : option (list A) :=
  if full q then None else Some (q ++ [x]).

(** [while not q.empty(): q.get_nowait()] *)
Fixpoint drain {A} (q : list A) : list A :=
  match q with
  | [] => []
  | _ :: q' => drain q'
  end.

End Queue.

(** ** app/core/pipeline.py *)

Module Pipeline.

Import ModelManager.
Import Queue.

Inductive StageName := Reader | Preprocessor | Inference | Postprocessor.

Inductive QueueName := QPreprocess | QInference | QPostprocess | QOutput.

#[global] Instance QueueName_eq_dec : EqDecision QueueName.
Proof. solve_decision. Defined.

Section Engine.

(** A decoded frame, the detector's result list for a frame, and an encoded
    JPEG image. *)
Context {Frame Dets Bytes : Type}.

(** The fields of [FaceStreamPipeline] that the threads share.  [det_model]
    and [rec_model] are the two components of [models] and are set and
    cleared together with it.  [cap = None]: the attribute does not exist
    yet ([hasattr(self, 'cap')] is false); [cap = Some b]: [b] is
    [self.cap.isOpened()].  In the queues [None] is the sentinel. *)
Record FaceStreamPipeline := {
  video_source_isdigit : bool;
  models : option ResourceSet;
  stop_event : bool;
  cap : option bool;
  threads : list StageName;
  preprocess_queue : list (option Frame);
  inference_queue : list (option Frame);
  postprocess_queue : list (option (Frame * Dets));
  output_queue : list (option Bytes);
}.

(** [FaceStreamPipeline.__init__], lines 32-46; the output queue is the one
    the manager passes in. *)
Definition new_pipeline (isdigit : bool) (out : list (option Bytes)) : FaceStreamPipeline :=
  {| video_source_isdigit := isdigit;
     models := None;
     stop_event := false;
     cap := None;
     threads := [];
     preprocess_queue := [];
     inference_queue := [];
     postprocess_queue := [];
     output_queue := out |}.

Definition set_models (m : option ResourceSet) (e : FaceStreamPipeline) :=
  {| video_source_isdigit := video_source_isdigit e; models := m;
     stop_event := stop_event e; cap := cap e; threads := threads e;
     preprocess_queue := preprocess_queue e; inference_queue := inference_queue e;
     postprocess_queue := postprocess_queue e; output_queue := output_queue e |}.

Definition set_stop_event (b : bool) (e : FaceStreamPipeline) :=
  {| video_source_isdigit := video_source_isdigit e; models := models e;
     stop_event := b; cap := cap e; threads := threads e;
     preprocess_queue := preprocess_queue e; inference_queue := inference_queue e;
     postprocess_queue := postprocess_queue e; output_queue := output_queue e |}.

Definition set_cap (c : option bool) (e : FaceStreamPipeline) :=
  {| video_source_isdigit := video_source_isdigit e; models := models e;
     stop_event := stop_event e; cap := c; threads := threads e;
     preprocess_queue := preprocess_queue e; inference_queue := inference_queue e;
     postprocess_queue := postprocess_queue e; output_queue := output_queue e |}.

Definition set_threads (t : list StageName) (e : FaceStreamPipeline) :=
  {| video_source_isdigit := video_source_isdigit e; models := models e;
     stop_event := stop_event e; cap := cap e; threads := t;
     preprocess_queue := preprocess_queue e; inference_queue := inference_queue e;
     postprocess_queue := postprocess_queue e; output_queue := output_queue e |}.

Definition set_preprocess_queue (q : list (option Frame)) (e : FaceStreamPipeline) :=
  {| video_source_isdigit := video_source_isdigit e; models := models e;
     stop_event := stop_event e; cap := cap e; threads := threads e;
     preprocess_queue := q; inference_queue := inference_queue e;
     postprocess_queue := postprocess_queue e; output_queue := output_queue e |}.

Definition set_inference_queue (q : list (option Frame)) (e : FaceStreamPipeline) :=
  {| video_source_isdigit := video_source_isdigit e; models := models e;
     stop_event := stop_event e; cap := cap e; threads := threads e;
     preprocess_queue := preprocess_queue e; inference_queue := q;
     postprocess_queue := postprocess_queue e; output_queue := output_queue e |}.

Definition set_postprocess_queue (q : list (option (Frame * Dets))) (e : FaceStreamPipeline) :=
  {| video_source_isdigit := video_source_isdigit e; models := models e;
     stop_event := stop_event e; cap := cap e; threads := threads e;
     preprocess_queue := preprocess_queue e; inference_queue := inference_queue e;
     postprocess_queue := q; output_queue := output_queue e |}.

Definition set_output_queue (q : list (option Bytes)) (e : FaceStreamPipeline) :=
  {| video_source_isdigit := video_source_isdigit e; models := models e;
     stop_event := stop_event e; cap := cap e; threads := threads e;
     preprocess_queue := preprocess_queue e; inference_queue := inference_queue e;
     postprocess_queue := postprocess_queue e; output_queue := q |}.

(** [hasattr(self, 'cap') and self.cap.isOpened()] *)
Definition cap_is_opened (e : FaceStreamPipeline) : bool :=
  match cap e with
  | Some b => b
  | None => false
  end.

(** *** [FaceStreamPipeline.stop], lines 77-109, run without interference

    [still_alive t] is [t.is_alive()] after [t.join(timeout=1.0)] (line 87);
    it decides only whether an error is logged.  The result is [None] when
    [release] cannot return (the pool's queue is full). *)
Definition stop (still_alive : StageName -> bool)
    (e : FaceStreamPipeline) (p : ModelPool) : option (FaceStreamPipeline * ModelPool) :=
  if stop_event e then Some (e, p)
  else
    let e1 := set_stop_event true e in
    let _logged := filter (fun t => still_alive t = true) (threads e1) in
    let e2 := if cap_is_opened e1 then set_cap (Some false) e1 else e1 in
    let e3 := set_preprocess_queue (drain (preprocess_queue e2)) e2 in
    let e4 := set_inference_queue (drain (inference_queue e3)) e3 in
    let e5 := set_postprocess_queue (drain (postprocess_queue e4)) e4 in
    match models e5 with
    | Some m =>
        match release m p with
        | Some p' => Some (set_models None e5, p')
        | None => None
        end
    | None => Some (e5, p)
    end.

(** *** Threads

    Program counters.  The constructor names give the source line the thread
    is about to execute. *)

(** [_reader_thread], lines 123-154. *)
Inductive ReaderPc :=
| R_idle                 (* not started *)
| R_while                (* line 128: test of the stop flag *)
| R_body                 (* lines 129-150: one pass of the loop body *)
| R_sentinel             (* line 153: [self.preprocess_queue.put(None)] *)
| R_end.

(** [_preprocessor_thread], lines 156-167. *)
Inductive PreprocessorPc :=
| P_idle
| P_while                (* line 158 *)
| P_get                  (* line 160 *)
| P_put (item : option Frame)   (* line 162 or 164: blocking put *)
| P_end.

(** [_inference_thread], lines 169-184. *)
Inductive InferencePc :=
| I_idle
| I_while                (* line 171 *)
| I_get                  (* lines 173-178 *)
| I_put (item : option (Frame * Dets))   (* line 175 or 179: blocking put *)
| I_end.

(** [_postprocessor_thread], lines 186-234. *)
Inductive PostprocessorPc :=
| O_idle
| O_while                (* line 189 *)
| O_get                  (* lines 191-219 *)
| O_publish (f : Frame) (b : Bytes)   (* line 222: [put_nowait] of the encoded frame *)
| O_final                (* line 231: [put_nowait(None)] *)
| O_end.

(** [stop], lines 77-109, statement by statement. *)
Inductive StopPc :=
| S_guard                (* line 79 *)
| S_set                  (* line 81 *)
| S_join                 (* lines 84-88 *)
| S_cap                  (* lines 91-93 *)
| S_drain_preprocess      (* lines 96-99, first queue of the list *)
| S_drain_inference      (* lines 96-99, second queue *)
| S_drain_postprocess    (* lines 96-99, third queue *)
| S_models               (* lines 102-104: test and [release] *)
| S_clear                (* lines 105-107 *)
| S_return.

(** [start], lines 48-75: the body of the session's driver thread. *)
Inductive DriverPc :=
| D_acquire              (* line 51 *)
| D_open                 (* lines 56-62 *)
| D_start_threads        (* line 64 *)
| D_monitor              (* lines 66-70 *)
| D_finally (s : StopPc) (* line 75: inside [self.stop()] *)
| D_end.

(** The manager's [stop_stream], lines 80-85, after the registry entry has
    been popped. *)
Inductive ManagerPc :=
| M_idle                 (* before line 83: [if thread.is_alive()] *)
| M_stop (s : StopPc)    (* line 84: inside [pipeline.stop()] *)
| M_end.

(** What the run makes observable. *)
Inductive Event :=
| EvRead (f : Frame)              (* [cap.read()] delivered [f] *)
| EvDropped (f : Frame)           (* line 145: [queue.Full], frame discarded *)
| EvPublished (f : Frame)         (* the encoding of [f] entered the output queue *)
| EvSentinel (q : QueueName)      (* [None] entered queue [q] *)
| EvSentinelLost                  (* line 232: [queue.Full] on the final [None] *)
| EvFed (x : option Bytes)        (* the feed dequeued [x] *)
| EvAcquired (m : ResourceSet)    (* the driver obtained [m] from the pool *)
| EvReleased (m : ResourceSet).   (* [stop] gave [m] back to the pool *)

Record World := {
  model_pool : ModelPool;
  eng : FaceStreamPipeline;
  reader : ReaderPc;
  preprocessor : PreprocessorPc;
  inference : InferencePc;
  postprocessor : PostprocessorPc;
  driver : DriverPc;
  manager : ManagerPc;
}.

Definition with_pool (p : ModelPool) (w : World) :=
  {| model_pool := p; eng := eng w; reader := reader w; preprocessor := preprocessor w;
     inference := inference w; postprocessor := postprocessor w;
     driver := driver w; manager := manager w |}.

Definition with_eng (e : FaceStreamPipeline) (w : World) :=
  {| model_pool := model_pool w; eng := e; reader := reader w; preprocessor := preprocessor w;
     inference := inference w; postprocessor := postprocessor w;
     driver := driver w; manager := manager w |}.

Definition with_reader (pc : ReaderPc) (w : World) :=
  {| model_pool := model_pool w; eng := eng w; reader := pc; preprocessor := preprocessor w;
     inference := inference w; postprocessor := postprocessor w;
     driver := driver w; manager := manager w |}.

Definition with_preprocessor (pc : PreprocessorPc) (w : World) :=
  {| model_pool := model_pool w; eng := eng w; reader := reader w; preprocessor := pc;
     inference := inference w; postprocessor := postprocessor w;
     driver := driver w; manager := manager w |}.

Definition with_inference (pc : InferencePc) (w : World) :=
  {| model_pool := model_pool w; eng := eng w; reader := reader w; preprocessor := preprocessor w;
     inference := pc; postprocessor := postprocessor w;
     driver := driver w; manager := manager w |}.

Definition with_postprocessor (pc : PostprocessorPc) (w : World) :=
  {| model_pool := model_pool w; eng := eng w; reader := reader w; preprocessor := preprocessor w;
     inference := inference w; postprocessor := pc;
     driver := driver w; manager := manager w |}.

Definition with_driver (pc : DriverPc) (w : World) :=
  {| model_pool := model_pool w; eng := eng w; reader := reader w; preprocessor := preprocessor w;
     inference := inference w; postprocessor := postprocessor w;
     driver := pc; manager := manager w |}.

Definition with_manager (pc : ManagerPc) (w : World) :=
  {| model_pool := model_pool w; eng := eng w; reader := reader w; preprocessor := preprocessor w;
     inference := inference w; postprocessor := postprocessor w;
     driver := driver w; manager := pc |}.

(** The state in which the manager has just started the driver thread
    ([process_thread.start()], stream_manager_service.py line 58). *)
Definition new_world (p : ModelPool) (isdigit : bool) (out : list (option Bytes)) : World :=
  {| model_pool := p; eng := new_pipeline isdigit out;
     reader := R_idle; preprocessor := P_idle; inference := I_idle; postprocessor := O_idle;
     driver := D_acquire; manager := M_idle |}.

(** **** Stage 1, capture *)

(** [ret, frame = self.cap.read()] *)
Inductive ReadOutcome :=
| ReadFrame (f : Frame)
| ReadNothing.

Definition reader_step (o : ReadOutcome) (w : World) : option (World * list Event) :=
  let e := eng w in
  match reader w with
  | R_while =>
      if stop_event e then Some (with_reader R_sentinel w, [])
      else Some (with_reader R_body w, [])
  | R_body =>
      if negb (cap_is_opened e) then Some (with_reader R_sentinel w, [])
      else
        match o with
        | ReadNothing =>
            if negb (video_source_isdigit e)
            then Some (with_reader R_sentinel w, [])      (* EOF of a file: break *)
            else Some (with_reader R_while w, [])         (* live source: sleep, continue *)
        | ReadFrame f =>
            match put_nowait (Some f) (preprocess_queue e) with
            | Some q =>
                Some (with_reader R_while (with_eng (set_preprocess_queue q e) w), [EvRead f])
            | None =>
                Some (with_reader R_while w, [EvRead f; EvDropped f])
            end
        end
  | R_sentinel =>
      match put_nowait None (preprocess_queue e) with
      | Some q =>
          Some (with_reader R_end (with_eng (set_preprocess_queue q e) w),
                [EvSentinel QPreprocess])
      | None => None
      end
  | R_idle | R_end => None
  end.

(** **** Stage 2, buffer *)

Definition preprocessor_step (w : World) : option (World * list Event) :=
  let e := eng w in
  match preprocessor w with
  | P_while =>
      if stop_event e then Some (with_preprocessor P_end w, [])
      else Some (with_preprocessor P_get w, [])
  | P_get =>
      match preprocess_queue e with
      | [] => Some (with_preprocessor P_while w, [])      (* queue.Empty: continue *)
      | x :: q =>
          Some (with_preprocessor (P_put x) (with_eng (set_preprocess_queue q e) w), [])
      end
  | P_put x =>
      match put_nowait x (inference_queue e) with
      | Some q =>
          let w' := with_eng (set_inference_queue q e) w in
          match x with
          | None => Some (with_preprocessor P_end w', [EvSentinel QInference])
          | Some _ => Some (with_preprocessor P_while w', [])
          end
      | None => None
      end
  | P_idle | P_end => None
  end.

(** **** Stage 3, detection *)

(** [self.det_model.predict(frame).results if self.det_model else []] *)
Inductive PredictOutcome :=
| Predicted (d : Dets)
| PredictRaised.

Definition inference_step (o : PredictOutcome) (w : World) : option (World * list Event) :=
  let e := eng w in
  match inference w with
  | I_while =>
      if stop_event e then Some (with_inference I_end w, [])
      else Some (with_inference I_get w, [])
  | I_get =>
      match inference_queue e with
      | [] => Some (with_inference I_while w, [])
      | None :: q =>
          Some (with_inference (I_put None) (with_eng (set_inference_queue q e) w), [])
      | Some f :: q =>
          let w' := with_eng (set_inference_queue q e) w in
          match o with
          | Predicted d => Some (with_inference (I_put (Some (f, d))) w', [])
          | PredictRaised => Some (with_inference I_while w', [])   (* line 182 *)
          end
      end
  | I_put x =>
      match put_nowait x (postprocess_queue e) with
      | Some q =>
          let w' := with_eng (set_postprocess_queue q e) w in
          match x with
          | None => Some (with_inference I_end w', [EvSentinel QPostprocess])
          | Some _ => Some (with_inference I_while w', [])
          end
      | None => None
      end
  | I_idle | I_end => None
  end.

(** **** Stage 4, recognition and rendering *)

(** Lines 194-219 for one frame: either the frame was annotated and
    [cv2.imencode] succeeded, or nothing is published (an exception reached
    line 227, or [flag] was false). *)
Inductive RenderOutcome :=
| Encoded (b : Bytes)
| NotEncoded.

Definition postprocessor_step (o : RenderOutcome) (w : World) : option (World * list Event) :=
  let e := eng w in
  match postprocessor w with
  | O_while =>
      if stop_event e then Some (with_postprocessor O_final w, [])
      else Some (with_postprocessor O_get w, [])
  | O_get =>
      match postprocess_queue e with
      | [] => Some (with_postprocessor O_while w, [])
      | None :: q =>
          Some (with_postprocessor O_final (with_eng (set_postprocess_queue q e) w), [])
      | Some (f, _) :: q =>
          let w' := with_eng (set_postprocess_queue q e) w in
          match o with
          | Encoded b => Some (with_postprocessor (O_publish f b) w', [])
          | NotEncoded => Some (with_postprocessor O_while w', [])
          end
      end
  | O_publish f b =>
      match put_nowait (Some b) (output_queue e) with
      | Some q =>
          Some (with_postprocessor O_while (with_eng (set_output_queue q e) w), [EvPublished f])
      | None => Some (with_postprocessor O_while w, [])      (* line 223: pass *)
      end
  | O_final =>
      match put_nowait None (output_queue e) with
      | Some q =>
          Some (with_postprocessor O_end (with_eng (set_output_queue q e) w),
                [EvSentinel QOutput])
      | None => Some (with_postprocessor O_end w, [EvSentinelLost])
      end
  | O_idle | O_end => None
  end.

(** **** [stop], one statement at a time *)

Definition stop_step (pc : StopPc) (w : World) : option (StopPc * World * list Event) :=
  let e := eng w in
  match pc with
  | S_guard =>
      if stop_event e then Some (S_return, w, []) else Some (S_set, w, [])
  | S_set => Some (S_join, with_eng (set_stop_event true e) w, [])
  | S_join => Some (S_cap, w, [])
  | S_cap =>
      if cap_is_opened e
      then Some (S_drain_preprocess, with_eng (set_cap (Some false) e) w, [])
      else Some (S_drain_preprocess, w, [])
  | S_drain_preprocess =>
      Some (S_drain_inference,
            with_eng (set_preprocess_queue (drain (preprocess_queue e)) e) w, [])
  | S_drain_inference =>
      Some (S_drain_postprocess,
            with_eng (set_inference_queue (drain (inference_queue e)) e) w, [])
  | S_drain_postprocess =>
      Some (S_models,
            with_eng (set_postprocess_queue (drain (postprocess_queue e)) e) w, [])
  | S_models =>
      match models e with
      | Some m =>
          match release m (model_pool w) with
          | Some p => Some (S_clear, with_pool p w, [EvReleased m])
          | None => None
          end
      | None => Some (S_return, w, [])
      end
  | S_clear => Some (S_return, with_eng (set_models None e) w, [])
  | S_return => None
  end.

(** [stop] executed by one caller from statement [pc] to its return, with
    nothing else running in between; [fuel] bounds the number of statements. *)
Fixpoint stop_steps (fuel : nat) (pc : StopPc) (w : World) : option World :=
  match pc with
  | S_return => Some w
  | _ =>
      match fuel with
      | O => None
      | S fuel' =>
          match stop_step pc w with
          | Some (pc', w', _) => stop_steps fuel' pc' w'
          | None => None
          end
      end
  end.

(** **** The driver thread: [start] *)

(** [t.is_alive()] *)
Definition is_alive (w : World) (t : StageName) : bool :=
  match t with
  | Reader => match reader w with R_idle | R_end => false | _ => true end
  | Preprocessor => match preprocessor w with P_idle | P_end => false | _ => true end
  | Inference => match inference w with I_idle | I_end => false | _ => true end
  | Postprocessor => match postprocessor w with O_idle | O_end => false | _ => true end
  end.

(** [_start_threads], lines 111-121. *)
Definition _start_threads (w : World) : World :=
  let e := eng w in
  let w1 :=
    with_eng (set_threads (threads e ++ [Reader; Preprocessor; Inference; Postprocessor]) e) w in
  with_postprocessor O_while
    (with_inference I_while (with_preprocessor P_while (with_reader R_while w1))).

(** [open_ok] is [self.cap.isOpened()] after [cv2.VideoCapture(...)]. *)
Definition driver_step (open_ok : bool) (w : World) : option (World * list Event) :=
  let e := eng w in
  match driver w with
  | D_acquire =>
      match acquire (model_pool w) with
      | (Some m, p) =>
          Some (with_driver D_open (with_eng (set_models (Some m) e) (with_pool p w)),
                [EvAcquired m])
      | (None, _) =>
          (* timeout: lines 52-54 return, the [finally] clause runs *)
          Some (with_driver (D_finally S_guard) w, [])
      end
  | D_open =>
      let w' := with_eng (set_cap (Some open_ok) e) w in
      if open_ok then Some (with_driver D_start_threads w', [])
      else Some (with_driver (D_finally S_guard) w', [])   (* RuntimeError, line 62 *)
  | D_start_threads => Some (with_driver D_monitor (_start_threads w), [])
  | D_monitor =>
      if stop_event e then Some (with_driver (D_finally S_guard) w, [])
      else if negb (forallb (is_alive w) (threads e))
      then Some (with_driver (D_finally S_guard) w, [])     (* line 69: break *)
      else Some (w, [])                                     (* line 70: sleep *)
  | D_finally pc =>
      match stop_step pc w with
      | Some (S_return, w', ev) => Some (with_driver D_end w', ev)
      | Some (pc', w', ev) => Some (with_driver (D_finally pc') w', ev)
      | None => None
      end
  | D_end => None
  end.

(** **** The manager: [stop_stream], lines 83-85 *)

Definition driver_is_alive (w : World) : bool :=
  match driver w with
  | D_end => false
  | _ => true
  end.

Definition manager_step (w : World) : option (World * list Event) :=
  match manager w with
  | M_idle =>
      if driver_is_alive w then Some (with_manager (M_stop S_guard) w, [])
      else Some (with_manager M_end w, [])
  | M_stop pc =>
      match stop_step pc w with
      | Some (S_return, w', ev) => Some (with_manager M_end w', ev)
      | Some (pc', w', ev) => Some (with_manager (M_stop pc') w', ev)
      | None => None
      end
  | M_end => None
  end.

(** **** The feed: [frame_queue.get(timeout=0.02)],
    stream_manager_service.py line 101 *)

Definition feed_step (w : World) : option (World * list Event) :=
  let e := eng w in
  match output_queue e with
  | [] => Some (w, [])
  | x :: q => Some (with_eng (set_output_queue q e) w, [EvFed x])
  end.

(** **** Other sessions using the same pool *)

Definition other_step (c : PoolCall) (w : World) : option (World * list Event) :=
  match c with
  | CallAcquire => Some (with_pool (snd (acquire (model_pool w))) w, [])
  | CallRelease m =>
      match release m (model_pool w) with
      | Some p => Some (with_pool p w, [])
      | None => None
      end
  end.

(** *** Interleavings *)

Inductive Actor :=
| AReader (o : ReadOutcome)
| APreprocessor
| AInference (o : PredictOutcome)
| APostprocessor (o : RenderOutcome)
| ADriver (open_ok : bool)
| AManager
| AFeed
| AOther (c : PoolCall).

Definition step (a : Actor) (w : World) : option (World * list Event) :=
  match a with
  | AReader o => reader_step o w
  | APreprocessor => preprocessor_step w
  | AInference o => inference_step o w
  | APostprocessor o => postprocessor_step o w
  | ADriver open_ok => driver_step open_ok w
  | AManager => manager_step w
  | AFeed => feed_step w
  | AOther c => other_step c w
  end.

(** A schedule is run from left to right; the events are collected in
    order.  [None]: some actor of the schedule could not take its step. *)
Fixpoint run (sched : list Actor) (w : World) : option (World * list Event) :=
  match sched with
  | [] => Some (w, [])
  | a :: rest =>
      match step a w with
      | None => None
      | Some (w1, ev1) =>
          match run rest w1 with
          | None => None
          | Some (w2, ev2) => Some (w2, ev1 ++ ev2)
          end
      end
  end.

(** *** What a trace says *)

Definition frames_read (tr : list Event) : list Frame :=
  omap (fun ev => match ev with EvRead f => Some f | _ => None end) tr.

Definition frames_published (tr : list Event) : list Frame :=
  omap (fun ev => match ev with EvPublished f => Some f | _ => None end) tr.

Definition frames_dropped (tr : list Event) : list Frame :=
  omap (fun ev => match ev with EvDropped f => Some f | _ => None end) tr.

Definition is_sentinel (q : QueueName) (ev : Event) : bool :=
  match ev with
  | EvSentinel q' => bool_decide (q = q')
  | _ => false
  end.

(** How many times [None] entered queue [q]. *)
Definition sentinels (q : QueueName) (tr : list Event) : nat :=
  length (filter (fun ev => is_sentinel q ev = true) tr).

Definition is_sentinel_lost (ev : Event) : bool :=
  match ev with
  | EvSentinelLost => true
  | _ => false
  end.

Definition sentinels_lost (tr : list Event) : nat :=
  length (filter (fun ev => is_sentinel_lost ev = true) tr).

Definition is_release (m : ResourceSet) (ev : Event) : bool :=
  match ev with
  | EvReleased m' => bool_decide (m = m')
  | _ => false
  end.

(** How many times [stop] released [m]. *)
Definition releases (m : ResourceSet) (tr : list Event) : nat :=
  length (filter (fun ev => is_release m ev = true) tr).

(** All four stage threads have terminated. *)
Definition stages_ended (w : World) : Prop :=
  reader w = R_end /\ preprocessor w = P_end /\
  inference w = I_end /\ postprocessor w = O_end.

(** *** Where the frames and the sentinels are

    The frames that were read and are still on their way, from the one
    closest to the output down to the newest: the frame stage 4 is about to
    publish, the postprocess queue, the frame stage 3 is about to forward,
    the inference queue, the frame stage 2 is about to forward, the
    preprocess queue. *)
Definition in_flight (w : World) : list Frame :=
  match postprocessor w with O_publish f _ => [f] | _ => [] end
  ++ omap (fun x : option (Frame * Dets) => fst <$> x) (postprocess_queue (eng w))
  ++ match inference w with I_put (Some (f, _)) => [f] | _ => [] end
  ++ omap id (inference_queue (eng w))
  ++ match preprocessor w with P_put (Some f) => [f] | _ => [] end
  ++ omap id (preprocess_queue (eng w)).

(** The number of sentinels in a queue. *)
Definition nones {A} (q : list (option A)) : nat :=
  length (filter (fun x : option A => x = None) q).

(** Sentinels that stage 2 has received or can still receive. *)
Definition sentinels_before_inference (w : World) : nat :=
  nones (preprocess_queue (eng w))
  + match preprocessor w with P_put None => 1 | _ => 0 end.

(** Sentinels that stage 3 has received or can still receive. *)
Definition sentinels_before_postprocess (w : World) : nat :=
  nones (inference_queue (eng w))
  + match inference w with I_put None => 1 | _ => 0 end.

Definition queues_bounded (w : World) : Prop :=
  length (preprocess_queue (eng w)) <= maxsize /\
  length (inference_queue (eng w)) <= maxsize /\
  length (postprocess_queue (eng w)) <= maxsize /\
  length (output_queue (eng w)) <= maxsize.

(** The bookkeeping of sentinels that every step maintains. *)
Definition sentinel_inv (w : World) (tr : list Event) : Prop :=
  sentinels QPreprocess tr = match reader w with R_end => 1 | _ => 0 end /\
  sentinels_before_inference w + sentinels QInference tr <= sentinels QPreprocess tr /\
  sentinels_before_postprocess w + sentinels QPostprocess tr <= sentinels QInference tr /\
  sentinels QOutput tr + sentinels_lost tr =
    match postprocessor w with O_end => 1 | _ => 0 end /\
  match driver w with
  | D_acquire | D_open | D_start_threads =>
      reader w = R_idle /\ preprocessor w = P_idle /\
      inference w = I_idle /\ postprocessor w = O_idle
  | _ => True
  end.

(** What was published, followed by what is on its way, is a subsequence
    of what was read. *)
Definition order_inv (w : World) (tr : list Event) : Prop :=
  frames_published tr ++ in_flight w `sublist_of` frames_read tr.

(** A stage 2 or 3 that has ended while the stop flag is clear left its
    loop through the [break] that follows the put of the sentinel. *)
Definition forward_inv (w : World) (tr : list Event) : Prop :=
  (preprocessor w = P_end -> stop_event (eng w) = false -> 1 <= sentinels QInference tr) /\
  (inference w = I_end -> stop_event (eng w) = false -> 1 <= sentinels QPostprocess tr).

(** Schedules in which [stop_stream] is never called for the session, so
    that [stop] is run by the driver thread alone. *)
Definition driver_only_stop (sched : list Actor) : bool :=
  forallb (fun a => match a with AManager => false | _ => true end) sched.

(** The sets the driver obtained and the sets [stop] gave back, in order. *)
Definition acquired_sets (tr : list Event) : list ResourceSet :=
  omap (fun ev => match ev with EvAcquired m => Some m | _ => None end) tr.

Definition released_sets (tr : list Event) : list ResourceSet :=
  omap (fun ev => match ev with EvReleased m => Some m | _ => None end) tr.

(** What the driver thread, as the only caller of [stop], has acquired and
    released at each of its statements, and what [self.models] holds
    there: before line 103 everything acquired is still held, after line
    105 everything acquired has been given back. *)
Definition custody (d : DriverPc) (flag : bool) (held : option ResourceSet)
    (acq rel : list ResourceSet) : Prop :=
  match d with
  | D_acquire => flag = false /\ held = None /\ acq = [] /\ rel = []
  | D_open | D_start_threads | D_monitor | D_finally S_guard =>
      flag = false /\ acq = option_list held /\ rel = []
  | D_finally (S_set | S_join | S_cap | S_drain_preprocess | S_drain_inference
               | S_drain_postprocess | S_models) =>
      acq = option_list held /\ rel = []
  | D_finally S_clear => acq = option_list held /\ rel = acq
  | D_finally S_return => False
  | D_end => held = None /\ rel = acq /\ length acq <= 1
  end.

Definition custody_inv (w : World) (tr : list Event) : Prop :=
  custody (driver w) (stop_event (eng w)) (models (eng w))
          (acquired_sets tr) (released_sets tr).

End Engine.

End Pipeline.

(** ** app/core/pipeline.py, [_postprocessor_thread]: one pass of the loop body *)

Module Postprocess.

Import ImageUtils.
Import Queue.

(** One entry of the detector's result list: the keys ["bbox"],
    ["landmarks"] (each entry's ["landmark"] point) and ["score"].  A missing
    ["landmarks"] key reads as the empty list (line 199). *)
Record FaceData := {
  bbox : list Q;
  landmarks : list Point;
  score : Q;
}.

(** The dictionaries appended to [final_results], lines 212-216. *)
Record ResultItem := {
  box : list Z;
  name : string;
  sn : option string;
  similarity : option Q;
}.

Inductive LoopControl := Continue | Break.

(** Python's [int(x)] on a float: truncation towards zero. *)
Definition int_of (x : Q) : Z :=
  if Qlt_le_dec x 0 then Qceiling x else Qfloor x.

Section Stage4.

Context {Bytes Embedding : Type}.

Variable estimateAffinePartial2D : list Point -> list Point -> Matrix * option (list bool).
Variable warpAffine : ndarray -> Matrix -> Z * Z -> option ndarray.

(** [self.rec_model.predict_batch(aligned_faces)] followed by the extraction
    of each embedding (line 209); [None] when any of this raises. *)
Variable predict_batch : list ndarray -> option (list Embedding).

(** [self.face_dao.search(embedding, threshold)]: name, sn, similarity. *)
Variable search : Embedding -> Q -> Result (option (string * string * Q)).

(** [_draw_results_on_frame]: the frame after drawing. *)
Variable draw : ndarray -> list ResultItem -> ndarray.

(** [cv2.imencode(".jpg", frame)] followed by [tobytes()]. *)
Variable imencode : ndarray -> bool * Bytes.

(** Lines 197-204.  The first component lists the landmark arguments of
    the calls of [align_and_crop], in call order; the second is the pair
    [(aligned_faces, valid_faces_meta)], or the exception that left the
    loop. *)
Fixpoint align_faces (original_frame : ndarray) (detected_faces_data : list FaceData)
  : list (list Point) * Result (list ndarray * list FaceData) :=
  match detected_faces_data with
  | [] => ([], Ok ([], []))
  | face_data :: rest =>
      let lms := landmarks face_data in
      if (length lms =? 5)%nat then
        match align_and_crop estimateAffinePartial2D warpAffine original_frame lms 112 with
        | Raise e => ([lms], Raise e)
        | Ok (aligned_face, _) =>
            let '(calls, r) := align_faces original_frame rest in
            (lms :: calls,
             bind r (fun '(faces, meta) =>
               if (0 <? size aligned_face)%Z
               then Ok (aligned_face :: faces, face_data :: meta)
               else Ok (faces, meta)))
        end
      else align_faces original_frame rest
  end.

(** Lines 208-216: [enumerate(batch_rec_results)] against
    [valid_faces_meta[i]]. *)
Fixpoint match_faces (threshold : Q) (embeddings : list Embedding) (meta : list FaceData)
  : Result (list ResultItem) :=
  match embeddings with
  | [] => Ok []
  | embedding :: embeddings' =>
      match meta with
      | [] => Raise IndexError
      | face_meta :: meta' =>
          bind (search embedding threshold) (fun search_res =>
            let item :=
              match search_res with
              | Some (n, s, sim) =>
                  {| box := map int_of (bbox face_meta); name := n;
                     sn := Some s; similarity := Some sim |}
              | None =>
                  {| box := map int_of (bbox face_meta); name := "Unknown";
                     sn := None; similarity := None |}
              end in
            bind (match_faces threshold embeddings' meta') (fun items => Ok (item :: items)))
      end
  end.

(** Lines 195-216: [final_results]. *)
Definition recognize (has_rec_model : bool) (threshold : Q)
    (original_frame : ndarray) (detected_faces_data : list FaceData)
  : Result (list ResultItem) :=
  if bool_decide (detected_faces_data <> []) && has_rec_model then
    bind (snd (align_faces original_frame detected_faces_data)) (fun '(aligned_faces, meta) =>
      match aligned_faces with
      | [] => Ok []
      | _ :: _ =>
          bind (of_option RuntimeError (predict_batch aligned_faces)) (fun embeddings =>
            match_faces threshold embeddings meta)
      end)
  else Ok [].

(** Lines 191-228: one pass of the loop body on the dequeued [data], with
    the output queue before and after. *)
Definition postprocessor_pass (has_rec_model : bool) (threshold : Q)
    (data : option (ndarray * list FaceData)) (output_queue : list (option Bytes))
  : LoopControl * list (option Bytes) :=
  match data with
  | None => (Break, output_queue)
  | Some (original_frame, detected_faces_data) =>
      match recognize has_rec_model threshold original_frame detected_faces_data with
      | Raise _ => (Continue, output_queue)                 (* line 227 *)
      | Ok final_results =>
          let '(flag, encoded) := imencode (draw original_frame final_results) in
          if flag then
            match put_nowait (Some encoded) output_queue with
            | Some q => (Continue, q)
            | None => (Continue, output_queue)              (* line 223 *)
            end
          else (Continue, output_queue)
      end
  end.

End Stage4.

(** Line 200: [len(landmarks) == 5]. *)
Definition has_five_landmarks (face_data : FaceData) : bool :=
  (length (landmarks face_data) =? 5)%nat.

End Postprocess.

(** ** app/service/stream_manager_service.py *)

Module StreamManager.

Import ModelManager.

Local Open Scope Z_scope.

(** Time is counted in milliseconds. *)

(** pipeline.py line 51: [self.model_pool.acquire(timeout=5.0)]. *)
Definition acquire_timeout_ms : Z := 5000.

(** stream_manager_service.py line 61: [await asyncio.sleep(0.2)]. *)
Definition grace_ms : Z := 200.

Inductive HTTPException :=
| HTTP_404_NOT_FOUND
| HTTP_500_INTERNAL_SERVER_ERROR
| HTTP_503_SERVICE_UNAVAILABLE.

(** [StreamStartRequest] *)
Record StreamStartRequest := {
  req_source : string;
  req_lifetime_minutes : option Z;
}.

(** [ActiveStreamInfo] *)
Record ActiveStreamInfo := {
  stream_id : string;
  source : string;
  started_at : Z;
  expires_at : option Z;
  lifetime_minutes : Z;
}.

(** A driver thread ([threading.Thread(target=pipeline.start)]) as the
    manager sees it: the instant at which [start] returns, [None] while the
    pipeline keeps running. *)
Record DriverThread := {
  exit_at : option Z;
}.

(** [thread.is_alive()] at time [t]. *)
Definition is_alive (th : DriverThread) (t : Z) : bool :=
  match exit_at th with
  | None => true
  | Some te => t <? te
  end.

(** [FaceStreamPipeline.start] (pipeline.py lines 48-75) run in a thread
    started at [t0], while no other session touches the pool and nobody
    stops this one.  [Queue.get(timeout=5.0)] on an empty queue returns
    after the whole timeout; every other statement is taken to last no
    time.  [open_ok] is [self.cap.isOpened()].  The result is the thread
    and the pool as the thread leaves it. *)
Definition run_start (p : ModelPool) (open_ok : bool) (t0 : Z) : DriverThread * ModelPool :=
  match acquire p with
  | (None, p') =>
      (* lines 52-54: return; line 75: stop() has nothing to release *)
      ({| exit_at := Some (t0 + acquire_timeout_ms) |}, p')
  | (Some m, p') =>
      if open_ok
      then ({| exit_at := None |}, p')                    (* lines 64-70 *)
      else ({| exit_at := Some t0 |}, default p' (release m p'))   (* lines 62, 75 *)
  end.

(** An entry of [self.active_streams].  The ["queue"] and ["pipeline"]
    entries play no part in [start_stream] beyond being stored. *)
Record StreamContext := {
  info : ActiveStreamInfo;
  thread : DriverThread;
}.

Record StreamManagerService := {
  model_pool : ModelPool;
  active_streams : gmap string StreamContext;
}.

(** [start_stream], lines 30-73, called at time [now]; [new_id] is
    [str(uuid.uuid4())] and [default_lifetime] is
    [settings.app.stream_default_lifetime_minutes]. *)
Definition start_stream (default_lifetime : Z) (new_id : string) (now : Z) (open_ok : bool)
    (req : StreamStartRequest) (svc : StreamManagerService)
  : (HTTPException + ActiveStreamInfo) * StreamManagerService :=
  let lifetime := default default_lifetime (req_lifetime_minutes req) in
  (* line 58: process_thread.start() *)
  let '(process_thread, p) := run_start (model_pool svc) open_ok now in
  (* line 61 *)
  let t := now + grace_ms in
  if negb (is_alive process_thread t)
  then (inl HTTP_503_SERVICE_UNAVAILABLE,
        {| model_pool := p; active_streams := active_streams svc |})
  else
    let expires := if lifetime =? -1 then None else Some (t + lifetime * 60000) in
    let stream_info :=
      {| stream_id := new_id; source := req_source req; started_at := t;
         expires_at := expires; lifetime_minutes := lifetime |} in
    (inr stream_info,
     {| model_pool := p;
        active_streams :=
          <[new_id := {| info := stream_info; thread := process_thread |}]>
            (active_streams svc) |}).

(** *** [get_stream_feed], lines 98-104 *)

Definition CRLF : string := String (Ascii.ascii_of_nat 13) (String (Ascii.ascii_of_nat 10) EmptyString).

(** Line 103: the multipart chunk around one JPEG image. *)
Definition chunk (frame_bytes : string) : string :=
  ("--frame" +:+ CRLF +:+ "Content-Type: image/jpeg" +:+ CRLF +:+ CRLF
   +:+ frame_bytes +:+ CRLF)%string.

Inductive FeedStep :=
| FeedYield (c : string)
| FeedWait            (* [queue.Empty]: sleep 0.01 s and poll again *)
| FeedBreak.

(** One pass of the [while True] loop: what happens and what is left in
    the queue. *)
Definition feed_pass (thread_alive : bool) (frame_queue : list (option string))
  : FeedStep * list (option string) :=
  if negb thread_alive && bool_decide (frame_queue = [])
  then (FeedBreak, frame_queue)
  else
    match frame_queue with
    | [] => (FeedWait, [])
    | None :: q => (FeedBreak, q)
    | Some frame_bytes :: q => (FeedYield (chunk frame_bytes), q)
    end.

(** The generator run for at most [fuel] passes against a queue that
    nobody else touches: the chunks yielded, and whether the generator has
    finished. *)
Fixpoint feed (fuel : nat) (thread_alive : bool) (frame_queue : list (option string))
  : list string * bool :=
  match fuel with
  | O => ([], false)
  | S fuel' =>
      match feed_pass thread_alive frame_queue with
      | (FeedBreak, _) => ([], true)
      | (FeedWait, q) => feed fuel' thread_alive q
      | (FeedYield c, q) =>
          let '(cs, fin) := feed fuel' thread_alive q in (c :: cs, fin)
      end
  end.

End StreamManager.

(** ** app/core/model_manager.py, [ModelPool.dispose] *)

Module ModelPoolDispose.

Import ModelManager.
Import Queue.

(** [dispose], lines 76-108.  Step 1 (lines 86-90) kills operating-system
    processes through [process_utils] and swallows every exception; it does
    not touch the pool object.  Step 2 (lines 95-105) is the loop
    [while not self._pool.empty(): self._pool.get_nowait()]. *)
Definition dispose (p : ModelPool) : ModelPool :=
  {| pool_size := pool_size p; _pool := drain (_pool p) |}.

End ModelPoolDispose.

(** ** app/core/pipeline.py, [_draw_results_on_frame] *)

Module Drawing.

Import Postprocess.

(** The BGR triples (0, 255, 0), (0, 0, 255) and (255, 255, 255). *)
Inductive Color := Green | Red | White.

(** The OpenCV calls that change the frame.  A thickness of [-1] is
    [cv2.FILLED]. *)
Inductive CvCall :=
| rectangle (pt1 pt2 : Z * Z) (color : Color) (thickness : Z)
| putText (text : string) (org : Z * Z) (color : Color).

Section Draw.

(** [f"{similarity:.2f}"] *)
Variable format_2f : Q -> string.

(** [cv2.getTextSize(label, cv2.FONT_HERSHEY_SIMPLEX, 0.6, 2)]: width and
    height of the text. *)
Variable getTextSize : string -> Z * Z.

(** Lines 21-24. *)
Definition label_of (res : ResultItem) : string :=
  let label := name res in
  match similarity res with
  | Some s =>
      if bool_decide (label <> "Unknown")
      then (label +:+ " (" +:+ format_2f s +:+ ")")%string
      else label
  | None => label
  end.

(** Line 25, evaluated on the finished label. *)
Definition color_of (res : ResultItem) : Color :=
  if bool_decide (label_of res <> "Unknown") then Green else Red.

(** Lines 18-29: the calls made on the frame, in order, and whether the
    loop ran to its end.  A box with one to three entries raises
    [IndexError] at line 26, before anything is drawn for that result. *)
Fixpoint _draw_results_on_frame (results : list ResultItem) : list CvCall * Result unit :=
  match results with
  | [] => ([], Ok tt)
  | res :: rest =>
      match box res with
      | [] => _draw_results_on_frame rest                    (* line 20: continue *)
      | x1 :: y1 :: x2 :: y2 :: _ =>
          let label := label_of res in
          let color := color_of res in
          let '(lw, lh) := getTextSize label in
          let '(calls, r) := _draw_results_on_frame rest in
          (rectangle (x1, y1) (x2, y2) color 2
             :: rectangle (x1, y1 - lh - 10)%Z (x1 + lw, y1)%Z color (-1)
             :: putText label (x1 + 5, y1 - 5)%Z White
             :: calls, r)
      | _ => ([], Raise IndexError)
      end
  end.

End Draw.

End Drawing.

(** ** app/service/stream_manager_service.py, the registry *)

Module StreamRegistry.

Import StreamManager.

Local Open Scope Z_scope.

(** The registry [self.active_streams].  A Python dictionary iterates in
    insertion order; a [gmap] does not record it, so the lists below come in
    the map's own key order and only their elements are meaningful. *)

(** [stop_stream], lines 75-87, at time [now]: the return value, whether
    [pipeline.stop()] is called (line 83), and the registry afterwards. *)
Definition stop_stream (now : Z) (sid : string) (streams : gmap string StreamContext)
  : bool * bool * gmap string StreamContext :=
  match streams !! sid with
  | None => (false, false, streams)
  | Some stream_context =>
      (true, is_alive (thread stream_context) now, delete sid streams)
  end.

(** Line 121: [s_ctx["info"].expires_at and now >= s_ctx["info"].expires_at]. *)
Definition is_expired (now : Z) (ctx : StreamContext) : bool :=
  match expires_at (info ctx) with
  | Some t => t <=? now
  | None => false
  end.

Definition keys_where (P : StreamContext -> bool) (streams : gmap string StreamContext)
  : list string :=
  (map_to_list (filter (fun kv : string * StreamContext => P kv.2 = true) streams)).*1.

(** [asyncio.gather] over [self.stop_stream(sid) for sid in ids]: every
    [stop_stream] pops its entry under the lock. *)
Definition stop_each (now : Z) (ids : list string) (streams : gmap string StreamContext)
  : gmap string StreamContext :=
  foldr (fun sid m => (stop_stream now sid m).2) streams ids.

(** One pass of [cleanup_expired_streams], lines 119-122, at time [now]. *)
Definition cleanup_pass (now : Z) (streams : gmap string StreamContext)
  : gmap string StreamContext :=
  stop_each now (keys_where (is_expired now) streams) streams.

(** [stop_all_streams], lines 123-126. *)
Definition stop_all_streams (now : Z) (streams : gmap string StreamContext)
  : gmap string StreamContext :=
  stop_each now (keys_where (fun _ => true) streams) streams.

(** [get_all_active_streams_info], lines 106-114, at time [now]: the list
    returned and the registry afterwards. *)
Definition get_all_active_streams_info (now : Z) (streams : gmap string StreamContext)
  : list ActiveStreamInfo * gmap string StreamContext :=
  let dead_stream_ids := keys_where (fun ctx => negb (is_alive (thread ctx) now)) streams in
  let active_infos :=
    (fun kv : string * StreamContext => info kv.2) <$>
    filter (fun kv : string * StreamContext => is_alive (thread kv.2) now = true)
           (map_to_list streams) in
  (active_infos, foldr (fun sid m => delete sid m) streams dead_stream_ids).


End StreamRegistry.

(** ** app/service/face_dao.py, [LanceDBFaceDataDAO.search] *)

Module FaceDao.

(** A row of the nearest-neighbour query, as far as [search] reads it: the
    keys ["name"], ["sn"] and ["_distance"]. *)
Record Neighbour := {
  nb_name : string;
  nb_sn : string;
  _distance : Q;
}.

Section Search.

Context {Embedding : Type}.

(** [self.table.count_rows()]; [Raise] when the call raises. *)
Variable count_rows : Result nat.

(** [self.table.search(embedding).metric("cosine").limit(top_k).to_list()]. *)
Variable nearest : Embedding -> Result (list Neighbour).

(** Lines 139-150; every exception is swallowed by line 149. *)
Definition search (embedding : Embedding) (threshold : Q) : option (string * string * Q) :=
  match count_rows with
  | Raise _ => None
  | Ok O => None
  | Ok (S _) =>
      match nearest embedding with
      | Raise _ => None
      | Ok [] => None
      | Ok (best_match :: _) =>
          let similarity := (1 - _distance best_match)%Q in
          if Qle_bool threshold similarity
          then Some (nb_name best_match, nb_sn best_match, similarity)
          else None
      end
  end.

End Search.

End FaceDao.

(** ** app/service/face_operation_service.py *)

Module FaceOperation.

Import ModelManager.
Import ImageUtils.
Import Postprocess.

(** How a request ends when it does not return: in an [HTTPException]
    with its status code, or in any other exception. *)
Inductive Failure :=
| HTTPException (status_code : Z)
| ValidationError                 (* pydantic's, raised by a model constructor *)
| Unhandled (e : Exn).

Inductive Outcome (A : Type) :=
| Return (a : A)
| Fail (f : Failure).
Arguments Return {A} a.
Arguments Fail {A} f.

Definition and_then {A B} (o : Outcome A) (k : A -> Outcome B) : Outcome B :=
  match o with
  | Return a => k a
  | Fail f => Fail f
  end.

Definition lift {A} (r : Result A) : Outcome A :=
  match r with
  | Ok a => Return a
  | Raise e => Fail (Unhandled e)
  end.

(** face_schema.py lines 44-61, [FaceRecognitionResult]: [landmark] is
    declared as lists of lists of [int]. *)
Record FaceRecognitionResult := {
  fr_name : string;
  fr_sn : string;
  fr_similarity : Q;
  fr_box : list Z;
  detection_confidence : Q;
  landmark : list (list Z);
}.

(** The validation of a float against the type [int]: a number without a
    fractional part is converted, any other is rejected. *)
Definition int_exact (x : Q) : option Z :=
  if Qeq_bool (inject_Z (Qfloor x)) x then Some (Qfloor x) else None.

(** The validation of [landmark] against [List[List[int]]].  The
    validator of lines 53-58 converts an [ndarray] only, and the value
    passed at line 100 is a list: it reaches the type check as it is. *)
Fixpoint validate_landmark (v : list Point) : option (list (list Z)) :=
  match v with
  | [] => Some []
  | (x, y) :: rest =>
      match int_exact x, int_exact y, validate_landmark rest with
      | Some a, Some b, Some l => Some ([a; b] :: l)
      | _, _, _ => None
      end
  end.

(** The constructor call of lines 96-101; the other fields are passed with
    the type they are declared with. *)
Definition new_FaceRecognitionResult (n s : string) (sim : Q) (face_meta : FaceData)
  : Outcome FaceRecognitionResult :=
  match validate_landmark (landmarks face_meta) with
  | Some lm =>
      Return {| fr_name := n; fr_sn := s; fr_similarity := sim;
                fr_box := map int_of (bbox face_meta);
                detection_confidence := score face_meta;
                landmark := lm |}
  | None => Fail ValidationError
  end.

Section Service.

Context {Bytes Embedding Record_ FaceInfo : Type}.

Variable estimateAffinePartial2D : list Point -> list Point -> Matrix * option (list bool).
Variable warpAffine : ndarray -> Matrix -> Z * Z -> option ndarray.

(** [cv2.imdecode(np.frombuffer(image_bytes, np.uint8), cv2.IMREAD_COLOR)];
    [None] when it returns [None] or raises. *)
Variable imdecode : Bytes -> option ndarray.

(** [detection_model.predict(img).results] *)
Variable predict_detection : DeGirumModel -> ndarray -> Result (list FaceData).

(** [recognition_model.predict(aligned_face).results[0]['data'][0]] *)
Variable predict : DeGirumModel -> ndarray -> Result Embedding.

(** [recognition_model.predict_batch(aligned_faces)] with the extraction of
    each embedding; [None] when any of this raises. *)
Variable predict_batch : DeGirumModel -> list ndarray -> option (list Embedding).

(** [self.face_dao.search(embedding, threshold)] *)
Variable search : Embedding -> Q -> Result (option (string * string * Q)).

(** [self.settings.degirum.recognition_similarity_threshold] *)
Variable threshold : Q.

(** [img[y1:y2, x1:x2]] *)
Variable crop : ndarray -> Z -> Z -> Z -> Z -> ndarray.

(** image_utils.py lines 26-30: the directory is made and the file written
    under a fresh name; the path and what [cv2.imwrite] returned. *)
Variable imwrite : ndarray -> string -> Result (string * bool).

(** face_dao.py lines 71-75: the new row is built and added. *)
Variable table_add : string -> string -> Embedding -> string -> Result Record_.

(** [FaceInfo.model_validate] *)
Variable model_validate : Record_ -> Result FaceInfo.

(** image_utils.py, [decode_image], lines 9-20. *)
Definition decode_image (image_bytes : Bytes) : Outcome ndarray :=
  match imdecode image_bytes with
  | Some img => Return img
  | None => Fail (HTTPException 400)
  end.

(** image_utils.py, [save_face_image], lines 22-33. *)
Definition save_face_image (face_img : ndarray) (sn : string) : Outcome string :=
  match imwrite face_img sn with
  | Raise e => Fail (Unhandled e)
  | Ok (file_path, success) =>
      if success then Return file_path else Fail (HTTPException 500)
  end.

(** face_dao.py, [LanceDBFaceDataDAO.create], lines 69-78. *)
Definition create (name sn : string) (features : Embedding) (image_path : string)
  : Outcome Record_ :=
  match table_add name sn features image_path with
  | Ok new_record => Return new_record
  | Raise _ => Fail (HTTPException 500)
  end.

(** [register_face], lines 41-59: the body of the [try], with the models
    in hand. *)
Definition register_with (name sn : string) (image_bytes : Bytes) (models : ResourceSet)
  : Outcome FaceInfo :=
  let '(detection_model, recognition_model) := models in
  and_then (decode_image image_bytes) (fun img =>
  and_then (lift (predict_detection detection_model img)) (fun faces =>
    match faces with
    | [] => Fail (HTTPException 400)                          (* line 47 *)
    | [face] =>
        and_then (lift (align_and_crop estimateAffinePartial2D warpAffine img
                          (landmarks face) 112)) (fun '(aligned_face, _) =>
        and_then (lift (predict recognition_model aligned_face)) (fun embedding =>
          match map int_of (bbox face) with
          | [x1; y1; x2; y2] =>
              and_then (save_face_image (crop img y1 y2 x1 x2) sn) (fun saved_path =>
              and_then (create name sn embedding saved_path) (fun new_record =>
              lift (model_validate new_record)))
          | _ => Fail (Unhandled ValueError)                  (* line 55 *)
          end))
    | _ :: _ :: _ => Fail (HTTPException 400)                 (* line 49 *)
    end)).

(** [register_face], lines 33-63.  The second component is the pool after
    the [finally] clause; [None] means that the release is blocked on a
    full queue. *)
Definition register_face (name sn : string) (image_bytes : Bytes) (p : ModelPool)
  : Outcome FaceInfo * option ModelPool :=
  match acquire p with
  | (None, p') => (Fail (HTTPException 503), Some p')
  | (Some models, p') => (register_with name sn image_bytes models, release models p')
  end.

(** Lines 90-101: only a face that the store knows is reported. *)
Fixpoint matched_faces (embeddings : list Embedding) (valid_faces_meta : list FaceData)
  : Outcome (list FaceRecognitionResult) :=
  match embeddings with
  | [] => Return []
  | embedding :: embeddings' =>
      match valid_faces_meta with
      | [] => Fail (Unhandled IndexError)
      | face_meta :: meta' =>
          and_then (lift (search embedding threshold)) (fun search_res =>
          and_then
            match search_res with
            | Some (n, s, sim) =>
                and_then (new_FaceRecognitionResult n s sim face_meta)
                         (fun r => Return [r])
            | None => Return []
            end (fun found =>
          and_then (matched_faces embeddings' meta') (fun rest => Return (found ++ rest))))
      end
  end.

(** Lines 78-102: what is returned for the detections of an image. *)
Definition recognize_detections (recognition_model : DeGirumModel) (img : ndarray)
    (detected_faces_data : list FaceData) : Outcome (list FaceRecognitionResult) :=
  match detected_faces_data with
  | [] => Return []
  | _ :: _ =>
      and_then (lift (snd (align_faces estimateAffinePartial2D warpAffine img
                             detected_faces_data))) (fun '(aligned_faces, valid_faces_meta) =>
        match aligned_faces with
        | [] => Return []
        | _ :: _ =>
            and_then (lift (of_option RuntimeError
                              (predict_batch recognition_model aligned_faces)))
              (fun embeddings => matched_faces embeddings valid_faces_meta)
        end)
  end.

(** [recognize_face], lines 73-102: the body of the [try]. *)
Definition recognize_with (image_bytes : Bytes) (models : ResourceSet)
  : Outcome (list FaceRecognitionResult) :=
  let '(detection_model, recognition_model) := models in
  and_then (decode_image image_bytes) (fun img =>
  and_then (lift (predict_detection detection_model img)) (fun detected_faces_data =>
    recognize_detections recognition_model img detected_faces_data)).

(** [recognize_face], lines 65-106. *)
Definition recognize_face (image_bytes : Bytes) (p : ModelPool)
  : Outcome (list FaceRecognitionResult) * option ModelPool :=
  match acquire p with
  | (None, p') => (Fail (HTTPException 503), Some p')
  | (Some models, p') => (recognize_with image_bytes models, release models p')
  end.

End Service.

(** A still-image result read as an entry of the stream's [final_results]. *)
Definition as_item (r : FaceRecognitionResult) : ResultItem :=
  {| box := fr_box r; name := fr_name r; sn := Some (fr_sn r);
     similarity := Some (fr_similarity r) |}.

End FaceOperation.

(** ** Scenarios

    Concrete pools, schedules and inputs on which the definitions above are
    run. *)

Module Scenarios.

Import ModelManager.

(** Capacity 2; two acquires, a third that times out, a release, and two
    more acquires of which the second times out. *)
Definition sample_pool : ModelPool :=
  {| pool_size := 2; _pool := [(1, 2); (3, 4)] |}.

Definition sample_calls : list PoolCall :=
  [CallAcquire; CallAcquire; CallAcquire; CallRelease (1, 2); CallAcquire; CallAcquire].

Definition sample_pool_end : PoolState :=
  {| pool := {| pool_size := 2; _pool := [] |}; holders := [(1, 2); (3, 4)] |}.

(** OpenCV stand-ins for running [align_and_crop]: an estimator that
    reports every point as an outlier exactly when the first landmark is the
    origin, and a warp that paints the destination with the source's top-left
    pixel. *)
Definition sample_estimate (src dst : list ImageUtils.Point)
  : ImageUtils.Matrix * option (list bool) :=
  match src with
  | (x, _) :: _ =>
      if Qeq_bool x 0 then ([], Some [false; false; false; false; false])
      else ([[1; 0; 0]; [0; 1; 0]]%Q, Some [true; true; true; true; true])
  | [] => ([], None)
  end.

Definition sample_warp (img : ImageUtils.ndarray) (M : ImageUtils.Matrix) (dsize : Z * Z)
  : option ImageUtils.ndarray :=
  Some {| ImageUtils.height := snd dsize; ImageUtils.width := fst dsize;
          ImageUtils.channels := ImageUtils.channels img;
          ImageUtils.pixel := fun _ _ c => ImageUtils.pixel img 0 0 c |}.

Definition sample_image : ImageUtils.ndarray :=
  {| ImageUtils.height := 480; ImageUtils.width := 640; ImageUtils.channels := 3;
     ImageUtils.pixel := fun r c _ => ((r + c) mod 256)%Z |}.

Definition sample_landmarks : list ImageUtils.Point :=
  [(0, 0); (10, 0); (5, 5); (1, 9); (9, 9)]%Q.

(** An engine in mid-run: it holds the set (1, 2), its source is open, and
    every queue has something in it. *)
Definition busy_engine : @Pipeline.FaceStreamPipeline nat unit nat :=
  {| Pipeline.video_source_isdigit := false;
     Pipeline.models := Some (1, 2);
     Pipeline.stop_event := false;
     Pipeline.cap := Some true;
     Pipeline.threads :=
       [Pipeline.Reader; Pipeline.Preprocessor; Pipeline.Inference; Pipeline.Postprocessor];
     Pipeline.preprocess_queue := [Some 5; Some 6];
     Pipeline.inference_queue := [Some 4];
     Pipeline.postprocess_queue := [Some (3, tt)];
     Pipeline.output_queue := [Some 1; Some 2] |}.

(** The same engine after [stop]. *)
Definition busy_engine_stopped : @Pipeline.FaceStreamPipeline nat unit nat :=
  {| Pipeline.video_source_isdigit := false;
     Pipeline.models := None;
     Pipeline.stop_event := true;
     Pipeline.cap := Some false;
     Pipeline.threads :=
       [Pipeline.Reader; Pipeline.Preprocessor; Pipeline.Inference; Pipeline.Postprocessor];
     Pipeline.preprocess_queue := [];
     Pipeline.inference_queue := [];
     Pipeline.postprocess_queue := [];
     Pipeline.output_queue := [Some 1; Some 2] |}.

(** A pool of capacity 1 whose only set is checked out. *)
Definition lent_pool : ModelPool := {| pool_size := 1; _pool := [] |}.

Definition returned_pool : ModelPool := {| pool_size := 1; _pool := [(1, 2)] |}.

(** *** Schedules of one session

    Frames are numbered in capture order; the detector's result and the
    encoded image are irrelevant here. *)

Definition Act := @Pipeline.Actor nat unit nat.

Definition one_set_pool : ModelPool := {| pool_size := 1; _pool := [(1, 2)] |}.

(** The driver acquires a set, opens the source and starts the stages. *)
Definition startup : list Act :=
  [Pipeline.ADriver true; Pipeline.ADriver true; Pipeline.ADriver true].

(** The capture stage tests the flag, reads frame [i] and offers it. *)
Definition capture (i : nat) : list Act :=
  [Pipeline.AReader (Pipeline.ReadFrame i); Pipeline.AReader (Pipeline.ReadFrame i)].

(** Stages 2, 3 and 4 each take the oldest item and pass it on; stage 4's
    encoding of a frame is its number. *)
Definition forward (i : nat) : list Act :=
  [Pipeline.APreprocessor; Pipeline.APreprocessor; Pipeline.APreprocessor;
   Pipeline.AInference (Pipeline.Predicted tt); Pipeline.AInference (Pipeline.Predicted tt);
   Pipeline.AInference (Pipeline.Predicted tt);
   Pipeline.APostprocessor (Pipeline.Encoded i); Pipeline.APostprocessor (Pipeline.Encoded i);
   Pipeline.APostprocessor (Pipeline.Encoded i)].

(** The file ends: the capture stage enqueues the sentinel and every later
    stage receives it in turn. *)
Definition end_of_file : list Act :=
  [Pipeline.AReader Pipeline.ReadNothing; Pipeline.AReader Pipeline.ReadNothing;
   Pipeline.AReader Pipeline.ReadNothing;
   Pipeline.APreprocessor; Pipeline.APreprocessor; Pipeline.APreprocessor;
   Pipeline.AInference Pipeline.PredictRaised; Pipeline.AInference Pipeline.PredictRaised;
   Pipeline.AInference Pipeline.PredictRaised;
   Pipeline.APostprocessor Pipeline.NotEncoded; Pipeline.APostprocessor Pipeline.NotEncoded;
   Pipeline.APostprocessor Pipeline.NotEncoded].

(** The driver notices that a stage has ended and runs [stop] to its end. *)
Definition teardown : list Act := replicate 10 (Pipeline.ADriver true).

Definition file_world : @Pipeline.World nat unit nat :=
  Pipeline.new_world one_set_pool false [].

Definition world_from (w0 : @Pipeline.World nat unit nat) (sched : list Act)
  : @Pipeline.World nat unit nat :=
  match Pipeline.run sched w0 with
  | Some (w, _) => w
  | None => w0
  end.

Definition trace_from (w0 : @Pipeline.World nat unit nat) (sched : list Act)
  : list (@Pipeline.Event nat nat) :=
  match Pipeline.run sched w0 with
  | Some (_, tr) => tr
  | None => []
  end.

Definition world_after := world_from file_world.
Definition trace_after := trace_from file_world.

(** A file of 30 frames played to its end while nobody reads the feed. *)
Definition unread_schedule : list Act :=
  startup ++ flat_map (fun i => capture i ++ forward i) (seq 0 30) ++ end_of_file ++ teardown.

Definition unread_world := Eval vm_compute in world_after unread_schedule.
Definition unread_trace := Eval vm_compute in trace_after unread_schedule.

(** A file of 2 frames played to its end while the feed takes every item
    as soon as it is there. *)
Definition watched_schedule : list Act :=
  startup ++ flat_map (fun i => capture i ++ forward i ++ [Pipeline.AFeed]) (seq 0 2)
  ++ end_of_file ++ [Pipeline.AFeed] ++ teardown.

Definition watched_world := Eval vm_compute in world_after watched_schedule.
Definition watched_trace := Eval vm_compute in trace_after watched_schedule.

(** The same run up to the moment at which every stage has ended and the
    driver has not yet noticed: the stop flag is still clear. *)
Definition finished_schedule : list Act :=
  startup ++ flat_map (fun i => capture i ++ forward i ++ [Pipeline.AFeed]) (seq 0 2)
  ++ end_of_file ++ [Pipeline.AFeed].

Definition finished_world := Eval vm_compute in world_after finished_schedule.
Definition finished_trace := Eval vm_compute in trace_after finished_schedule.

(** The capture stage reads 30 frames that nobody takes away, and is about
    to read the next one. *)
Definition saturating_schedule : list Act :=
  startup ++ flat_map capture (seq 0 30) ++ [Pipeline.AReader (Pipeline.ReadFrame 30)].

Definition saturated_world := Eval vm_compute in world_after saturating_schedule.
Definition saturated_trace := Eval vm_compute in trace_after saturating_schedule.

(** 32 frames are read while the later stages are idle, then three frames
    are forwarded. *)
Definition lossy_schedule : list Act :=
  startup ++ flat_map capture (seq 0 32) ++ flat_map forward (seq 0 3).

Definition lossy_world := Eval vm_compute in world_after lossy_schedule.
Definition lossy_trace := Eval vm_compute in trace_after lossy_schedule.

(** *** A stop request that arrives while the driver waits for a set

    The pool's only set is with another session, so the driver blocks in
    [acquire].  The manager runs [stop_stream] to its end.  Then the other
    session returns the set, the driver's [acquire] succeeds, the driver
    goes through the rest of [start] and its [finally] clause, and the four
    stages, started with the stop flag already set, end at once. *)
Definition waiting_world : @Pipeline.World nat unit nat :=
  Pipeline.new_world lent_pool false [].

Definition late_acquire_schedule : list Act :=
  replicate 9 Pipeline.AManager
  ++ [Pipeline.AOther (CallRelease (1, 2))]
  ++ replicate 5 (Pipeline.ADriver true)
  ++ [Pipeline.AReader Pipeline.ReadNothing; Pipeline.AReader Pipeline.ReadNothing;
      Pipeline.APreprocessor; Pipeline.AInference Pipeline.PredictRaised;
      Pipeline.APostprocessor Pipeline.NotEncoded; Pipeline.APostprocessor Pipeline.NotEncoded].

Definition late_acquire_world := Eval vm_compute in world_from waiting_world late_acquire_schedule.
Definition late_acquire_trace := Eval vm_compute in trace_from waiting_world late_acquire_schedule.

(** *** Two [stop] calls that both pass the guard

    Capacity 2; the set (3, 4) is with another session.  The file ends at
    once, so the capture stage ends and the driver leaves its monitoring loop
    for [stop]; at that moment the manager calls [stop] too.  Both test the
    stop flag (line 79) before either sets it (line 81), and both reach
    line 102 before either clears [self.models] (line 105). *)
Definition half_lent_pool : ModelPool := {| pool_size := 2; _pool := [(1, 2)] |}.

Definition racing_world : @Pipeline.World nat unit nat :=
  Pipeline.new_world half_lent_pool false [].

Definition racing_schedule : list Act :=
  startup
  ++ replicate 3 (Pipeline.AReader Pipeline.ReadNothing)
  ++ [Pipeline.ADriver true; Pipeline.AManager]          (* both enter [stop] *)
  ++ [Pipeline.ADriver true; Pipeline.AManager]          (* line 79, twice *)
  ++ replicate 7 (Pipeline.ADriver true)                 (* lines 81-104 *)
  ++ replicate 7 Pipeline.AManager                       (* lines 81-104 *)
  ++ [Pipeline.ADriver true; Pipeline.AManager].         (* lines 105-109, twice *)

Definition racing_end_world := Eval vm_compute in world_from racing_world racing_schedule.
Definition racing_trace := Eval vm_compute in trace_from racing_world racing_schedule.

(** The same race when the pool has capacity 1: after the driver's
    release the queue is full and the manager's [release] cannot return. *)
Definition racing_schedule_blocked : list Act :=
  startup
  ++ replicate 3 (Pipeline.AReader Pipeline.ReadNothing)
  ++ [Pipeline.ADriver true; Pipeline.AManager]
  ++ [Pipeline.ADriver true; Pipeline.AManager]
  ++ replicate 7 (Pipeline.ADriver true)
  ++ replicate 6 Pipeline.AManager.

Definition racing_blocked_world := Eval vm_compute in world_after racing_schedule_blocked.

(** *** A stage that fails to join

    30 frames fill the inference queue while stage 3 is idle; stage 2 holds
    frame 30 and is blocked in its [put].  The manager's [stop] times out on
    the join, drains the queues and returns; only then does stage 2's [put]
    go through. *)
Definition blocked_stage_schedule : list Act :=
  startup
  ++ flat_map (fun i => capture i ++ replicate 3 Pipeline.APreprocessor) (seq 0 30)
  ++ capture 30 ++ replicate 2 Pipeline.APreprocessor.

Definition blocked_stage_world := Eval vm_compute in world_after blocked_stage_schedule.

Definition after_stop_world :=
  Eval vm_compute in world_from blocked_stage_world (replicate 10 Pipeline.AManager).

Definition refilled_world :=
  Eval vm_compute in world_from after_stop_world [Pipeline.APreprocessor].

(** *** Three sessions on a pool of two *)

Definition empty_service : StreamManager.StreamManagerService :=
  {| StreamManager.model_pool := sample_pool; StreamManager.active_streams := ∅ |}.

Definition camera_request : StreamManager.StreamStartRequest :=
  {| StreamManager.req_source := "0"; StreamManager.req_lifetime_minutes := None |}.

(** [start_stream] called at 0 s, 1 s and 2 s, each time with a source that
    opens; the results and the service after each call. *)
Definition first_start :=
  StreamManager.start_stream 10 "s1" 0 true camera_request empty_service.
Definition second_start :=
  StreamManager.start_stream 10 "s2" 1000 true camera_request (snd first_start).
Definition third_start :=
  StreamManager.start_stream 10 "s3" 2000 true camera_request (snd second_start).

(** *** More inputs *)

(** Capacity 2, one set in the pool and one with a caller. *)
Definition one_out_state : PoolState :=
  {| pool := {| pool_size := 2; _pool := [(3, 4)] |}; holders := [(1, 2)] |}.

(** Two detections of one frame: a face with five landmarks and one with
    three. *)
Definition sample_faces : list Postprocess.FaceData :=
  [ {| Postprocess.bbox := [10.6; 20.2; 110.9; 140.5]%Q;
       Postprocess.landmarks := [(30, 40); (70, 40); (50, 60); (35, 80); (65, 80)]%Q;
       Postprocess.score := 0.9%Q |};
    {| Postprocess.bbox := [200; 20; 300; 140]%Q;
       Postprocess.landmarks := [(230, 40); (270, 40); (250, 60)]%Q;
       Postprocess.score := 0.8%Q |} ].

(** A recogniser that returns one embedding per crop, and a face store in
    which nobody is registered. *)
Definition sample_predict_batch (faces : list ImageUtils.ndarray) : option (list unit) :=
  Some (map (fun _ => tt) faces).

Definition sample_search (_ : unit) (_ : Q) : Result (option (string * string * Q)) :=
  Ok None.

(** *** A still image

    The detector finds one face, in profile, with three landmarks; the
    store holds one row, at cosine distance 0.2 of every embedding. *)
Definition profile_face : Postprocess.FaceData :=
  {| Postprocess.bbox := [200; 20; 300; 140]%Q;
     Postprocess.landmarks := [(230, 40); (270, 40); (250, 60)]%Q;
     Postprocess.score := 0.8%Q |}.

Definition still_decode (_ : nat) : option ImageUtils.ndarray := Some sample_image.

Definition still_detect (_ : DeGirumModel) (_ : ImageUtils.ndarray)
  : Result (list Postprocess.FaceData) :=
  Ok [profile_face].

Definition still_predict (_ : DeGirumModel) (_ : ImageUtils.ndarray) : Result unit := Ok tt.

Definition still_predict_batch (_ : DeGirumModel) (faces : list ImageUtils.ndarray)
  : option (list unit) :=
  sample_predict_batch faces.

Definition still_crop (img : ImageUtils.ndarray) (y1 y2 x1 x2 : Z) : ImageUtils.ndarray := img.

Definition still_imwrite (_ : ImageUtils.ndarray) (sn : string) : Result (string * bool) :=
  Ok (sn, true).

Definition still_table_add (_ _ : string) (_ : unit) (_ : string) : Result unit := Ok tt.

Definition still_validate (_ : unit) : Result unit := Ok tt.

Definition one_row : Result nat := Ok 1.

Definition near_ann (_ : unit) : Result (list FaceDao.Neighbour) :=
  Ok [ {| FaceDao.nb_name := "Ann"; FaceDao.nb_sn := "sn1"; FaceDao._distance := 0.2%Q |} ].

Definition ann_search (e : unit) (t : Q) : Result (option (string * string * Q)) :=
  Ok (FaceDao.search one_row near_ann e t).

(** One detection with five landmarks, the first of them between two
    pixels. *)
Definition subpixel_faces : list Postprocess.FaceData :=
  [ {| Postprocess.bbox := [10.6; 20.2; 110.9; 140.5]%Q;
       Postprocess.landmarks := [(30.5, 40); (70, 40); (50, 60); (35, 80); (65, 80)]%Q;
       Postprocess.score := 0.9%Q |} ].

Definition ann_results : Result (list Postprocess.ResultItem) :=
  Eval vm_compute in
    Postprocess.recognize sample_estimate sample_warp sample_predict_batch ann_search
      true 0.5%Q sample_image sample_faces.

(** The descriptor of the first of the three sessions. *)
Definition first_info : StreamManager.ActiveStreamInfo :=
  {| StreamManager.stream_id := "s1"; StreamManager.source := "0";
     StreamManager.started_at := 200; StreamManager.expires_at := Some 600200%Z;
     StreamManager.lifetime_minutes := 10 |}.

End Scenarios.

(** * Properties *)

(** ** The model pool *)

Section PoolProperties.

Import ModelManager.
Import Scenarios.

Lemma load_sets_length create i n sets :
  load_sets create i n = Some sets -> length sets = n.
Proof.
  revert i sets. induction n as [|n IH]; intros i sets; simpl.
  - intros [= <-]. reflexivity.
  - destruct (create i) as [m|]; [|discriminate].
    destruct (load_sets create (S i) n) as [rest|] eqn:E; [|discriminate].
    intros [= <-]. simpl. f_equal. eauto.
Qed.

Lemma load_sets_lookup create n : forall i sets,
  load_sets create i n = Some sets ->
  forall k, k < n -> create (i + k) = sets !! k.
Proof.
  induction n as [|n IH]; intros i sets; simpl.
  - intros _ k Hk. lia.
  - destruct (create i) as [m|] eqn:Ei; [|discriminate].
    destruct (load_sets create (S i) n) as [rest|] eqn:E; [|discriminate].
    intros [= <-] [|k] Hk.
    + rewrite Nat.add_0_r. exact Ei.
    + replace (i + S k) with (S i + k) by lia. simpl. apply (IH _ _ E). lia.
Qed.

Lemma load_sets_none create n : forall i,
  load_sets create i n = None <-> exists j, i <= j < i + n /\ create j = None.
Proof.
  induction n as [|n IH]; intros i; simpl.
  - split; [discriminate|]. intros (j & Hj & _). lia.
  - destruct (create i) as [m|] eqn:Ei.
    + destruct (load_sets create (S i) n) as [rest|] eqn:E.
      * split; [discriminate|]. intros (j & Hj & Hc).
        destruct (decide (j = i)) as [->|Hne]; [congruence|].
        assert (Hn : load_sets create (S i) n = None)
          by (apply IH; exists j; split; [lia|exact Hc]).
        congruence.
      * split; [|reflexivity]. intros _.
        apply IH in E as (j & Hj & Hc). exists j. split; [lia|exact Hc].
    + split; [|reflexivity]. intros _. exists i. split; [lia|exact Ei].
Qed.

(** X1.  Construction is all or nothing.  There is no pool exactly when the
    load of some set below the requested size fails; otherwise the pool has
    the requested size and its queue is full, holding at position [i] the
    set that iteration [i] created, with nothing checked out. *)
Lemma init_all_or_nothing create size :
  match init create size with
  | Some p =>
      pool_size p = size /\ qsize p = size /\ pool_inv (fresh_state p) /\
      (forall i, i < size -> create i = _pool p !! i)
  | None => exists i, i < size /\ create i = None
  end /\
  (init create size = None <-> exists i, i < size /\ create i = None).
Proof.
  assert (Hnone : init create size = None <-> exists i, i < size /\ create i = None).
  { unfold init. pose proof (load_sets_none create size 0) as H.
    destruct (load_sets create 0 size) as [sets|].
    - split; [discriminate|]. intros (i & Hi & Hc).
      assert (@None (list ResourceSet) = Some sets -> False) by discriminate.
      exfalso. apply H0. symmetry. apply H. exists i. split; [lia|exact Hc].
    - split; [|reflexivity]. intros _. destruct H as [H _].
      destruct (H eq_refl) as (j & Hj & Hc). exists j. split; [lia|exact Hc]. }
  split; [|exact Hnone].
  destruct (init create size) as [p|] eqn:Ei; [|apply Hnone; reflexivity].
  unfold init in Ei.
  destruct (load_sets create 0 size) as [sets|] eqn:E; [|discriminate].
  injection Ei as <-.
  pose proof (load_sets_lookup _ _ _ _ E) as Hl.
  apply load_sets_length in E. unfold pool_inv, checked_out, available, capacity, qsize.
  simpl. repeat split; auto.
Qed.

Lemma remove_one_length m l :
  m ∈ l -> S (length (remove_one m l)) = length l.
Proof.
  induction l as [|x l IH]; simpl.
  - intros H. inversion H.
  - intros H. destruct (decide (x = m)) as [->|Hne]; [reflexivity|].
    simpl. f_equal. apply IH. apply elem_of_cons in H as [->|H]; [congruence|done].
Qed.

Lemma pool_call_inv c s s1 :
  legal c s -> pool_call c s = Some s1 -> pool_inv s ->
  pool_inv s1 /\ capacity s1 = capacity s.
Proof.
  unfold pool_inv, checked_out, available, capacity, qsize.
  destruct s as [[size q] hs]. destruct c as [|m]; simpl.
  - intros _. unfold acquire. simpl. destruct q as [|m q]; intros [= <-]; simpl.
    + auto.
    + intros Hi. simpl in Hi. split; [lia|done].
  - intros Hl. unfold release, qsize. simpl.
    destruct (decide (length q < size)); [|discriminate].
    intros [= <-]. simpl. rewrite length_app. simpl.
    pose proof (remove_one_length _ _ Hl). intros Hi. split; [lia|done].
Qed.

(** X2.  Under the invariant a legal release finds room: it never blocks. *)
Lemma legal_release_takes_effect m s :
  pool_inv s -> m ∈ holders s -> is_Some (pool_call (CallRelease m) s).
Proof.
  unfold pool_inv, checked_out, available, capacity, qsize.
  destruct s as [[size q] hs]. simpl. intros H Hm.
  unfold release, qsize. simpl.
  destruct hs as [|h hs]; [inversion Hm|]. simpl in H.
  destruct (decide (length q < size)); [eauto|lia].
Qed.

(** C1.  For a pool of capacity C, every interleaving of [acquire] and
    [release] calls in which each release gives back a set that is
    checked out keeps [checked_out + available = C], with C itself
    unchanged; and in every state so reached an [acquire] that finds no set
    before its deadline returns [None] and leaves the state, hence both
    counts, as they were. *)
Theorem pool_conservation (s : PoolState) (calls : list PoolCall) (s' : PoolState)
    (Hinv : pool_inv s) (Hrun : pool_run calls s = Some s') :
  checked_out s' + available s' = capacity s' /\
  capacity s' = capacity s /\
  (available s' = 0 ->
     fst (acquire (pool s')) = None /\ pool_call CallAcquire s' = Some s').
Proof.
  revert s Hinv Hrun. induction calls as [|c calls IH]; intros s Hinv; simpl.
  - intros [= <-]. split; [exact Hinv|]. split; [done|].
    unfold available, qsize. destruct s as [[size q] hs]; simpl.
    destruct q; [|discriminate]. intros _. split; reflexivity.
  - destruct (decide (legal c s)) as [Hl|]; [|discriminate].
    destruct (pool_call c s) as [s1|] eqn:E; [|discriminate].
    intros Hrun. destruct (pool_call_inv _ _ _ Hl E Hinv) as [H1 H2].
    destruct (IH _ H1 Hrun) as (Ha & Hb & Hc).
    split; [done|]. split; [congruence|done].
Qed.

Lemma pool_conservation_witness :
  checked_out sample_pool_end + available sample_pool_end = capacity sample_pool_end /\
  capacity sample_pool_end = capacity (fresh_state sample_pool) /\
  (available sample_pool_end = 0 ->
     fst (acquire (pool sample_pool_end)) = None /\
     pool_call CallAcquire sample_pool_end = Some sample_pool_end).
Proof.
  apply (pool_conservation (fresh_state sample_pool) sample_calls sample_pool_end).
  - reflexivity.
  - vm_compute. reflexivity.
Defined.

End PoolProperties.

(** ** [align_and_crop] *)

Section AlignProperties.

Import ImageUtils.

Local Open Scope Z_scope.

Variable estimateAffinePartial2D : list Point -> list Point -> Matrix * option (list bool).
Variable warpAffine : ndarray -> Matrix -> Z * Z -> option ndarray.

Lemma asserts_pass img landmarks image_size :
  length landmarks = 5%nat ->
  image_size mod 112 = 0 \/ image_size mod 128 = 0 ->
  align_and_crop estimateAffinePartial2D warpAffine img landmarks image_size =
    let '(M, inliers) := estimateAffinePartial2D landmarks (dst image_size) in
    if degenerate inliers
    then bind (np_zeros image_size image_size 3) (fun z => Ok (z, zeros_2x3))
    else bind (of_option CvError (warpAffine img M (image_size, image_size)))
              (fun aligned => Ok (aligned, M)).
Proof.
  intros Hlen Hsize. unfold align_and_crop. rewrite Hlen. simpl.
  destruct Hsize as [H|H]; rewrite H; simpl; [reflexivity|].
  rewrite orb_true_r. reflexivity.
Qed.

(** C7, as the code has it.  For exactly 5 landmarks and a positive target
    size: a multiple of 112 gives ratio = size/112 and no horizontal offset;
    a multiple of 128 that is not a multiple of 112 gives ratio = size/128
    and the offset 8 * ratio, added to the first coordinate of every scaled
    reference point; a degenerate alignment returns the all-zero image of the
    target size and the zero matrix, not an error; and every image returned
    has the target size as its height and width. *)
Theorem align_and_crop_sizes (img : ndarray) (landmarks : list Point) (image_size : Z)
    (Hwarp : warp_has_dsize warpAffine)
    (Hlen : length landmarks = 5%nat)
    (Hpos : 0 < image_size)
    (Hmul : image_size mod 112 = 0 \/ image_size mod 128 = 0) :
  (image_size mod 112 = 0 ->
     ratio_and_diff_x image_size = (inject_Z image_size / 112, 0)%Q /\
     dst image_size =
       map (fun p : Point =>
              (fst p * (inject_Z image_size / 112) + 0, snd p * (inject_Z image_size / 112))%Q)
           _arcface_ref_kps) /\
  (image_size mod 112 <> 0 ->
     ratio_and_diff_x image_size =
       (inject_Z image_size / 128, 8 * (inject_Z image_size / 128))%Q /\
     dst image_size =
       map (fun p : Point =>
              (fst p * (inject_Z image_size / 128) + 8 * (inject_Z image_size / 128),
               snd p * (inject_Z image_size / 128))%Q)
           _arcface_ref_kps) /\
  (degenerate (snd (estimateAffinePartial2D landmarks (dst image_size))) = true ->
     align_and_crop estimateAffinePartial2D warpAffine img landmarks image_size = Ok (zero_image image_size, zeros_2x3)) /\
  (forall out M, align_and_crop estimateAffinePartial2D warpAffine img landmarks image_size = Ok (out, M) ->
     height out = image_size /\ width out = image_size).
Proof.
  split; [|split; [|split]].
  - intros H. unfold dst, ratio_and_diff_x.
    destruct (decide (image_size mod 112 = 0)); [|contradiction]. split; reflexivity.
  - intros H. unfold dst, ratio_and_diff_x.
    destruct (decide (image_size mod 112 = 0)); [contradiction|]. split; reflexivity.
  - intros Hdeg. rewrite asserts_pass by assumption.
    destruct (estimateAffinePartial2D landmarks (dst image_size)) as [M inl].
    simpl in Hdeg. rewrite Hdeg. unfold np_zeros.
    destruct (decide (0 <= image_size /\ 0 <= image_size /\ 0 <= 3)) as [_|Hn]; [|lia].
    reflexivity.
  - intros out M. rewrite asserts_pass by assumption.
    destruct (estimateAffinePartial2D landmarks (dst image_size)) as [M' inl].
    destruct (degenerate inl).
    + unfold np_zeros.
      destruct (decide (0 <= image_size /\ 0 <= image_size /\ 0 <= 3)) as [_|Hn]; [|lia].
      simpl. intros [= <- <-]. simpl. auto.
    + destruct (warpAffine img M' (image_size, image_size)) as [a|] eqn:E; simpl; [|discriminate].
      intros [= <- <-]. eapply Hwarp; eauto.
Qed.

End AlignProperties.

Section AlignExamples.

Import ImageUtils.
Import Scenarios.

Local Open Scope Z_scope.

Lemma sample_warp_has_dsize : warp_has_dsize sample_warp.
Proof.
  intros img M w h out _ _. unfold sample_warp. intros [= <-]. simpl. auto.
Qed.

Lemma align_and_crop_sizes_witness :
  degenerate (snd (sample_estimate sample_landmarks (dst 256))) = true /\
  align_and_crop sample_estimate sample_warp sample_image sample_landmarks 256
    = Ok (zero_image 256, zeros_2x3) /\
  ratio_and_diff_x 256 = (inject_Z 256 / 128, 8 * (inject_Z 256 / 128))%Q.
Proof.
  pose proof (align_and_crop_sizes sample_estimate sample_warp
                sample_image sample_landmarks 256 sample_warp_has_dsize) as H.
  destruct H as (_ & H128 & Hzero & _).
  - reflexivity.
  - lia.
  - right. reflexivity.
  - split; [reflexivity|]. split.
    + apply Hzero. reflexivity.
    + apply H128. discriminate.
Defined.

(** C7 as stated fails for a size that is a multiple of both 112 and 128:
    896 = 7 * 128 = 8 * 112 takes the first branch, so the ratio is 8, not
    896/128 = 7, and no offset is applied where 8 * 7 = 56 is claimed. *)
Lemma multiple_of_128_without_offset :
  896 mod 128 = 0 /\
  ratio_and_diff_x 896 = (inject_Z 896 / 112, 0)%Q /\
  ~ (fst (ratio_and_diff_x 896) == inject_Z 896 / 128)%Q /\
  ~ (snd (ratio_and_diff_x 896) == 8 * (inject_Z 896 / 128))%Q /\
  ~ (forall image_size : Z,
       0 < image_size -> image_size mod 128 = 0 ->
       (fst (ratio_and_diff_x image_size) == inject_Z image_size / 128)%Q /\
       (snd (ratio_and_diff_x image_size) == 8 * (inject_Z image_size / 128))%Q).
Proof.
  split; [reflexivity|]. split; [reflexivity|].
  split; [intros H; discriminate H|].
  split; [intros H; discriminate H|].
  intros H. destruct (H 896) as [H1 _]; [lia|reflexivity|]. discriminate H1.
Qed.

End AlignExamples.

(** ** Stage 4: detections without exactly five landmarks *)

Section PostprocessProperties.

Import ImageUtils.
Import Postprocess.

Context {Bytes Embedding : Type}.

Variable estimateAffinePartial2D : list Point -> list Point -> Matrix * option (list bool).
Variable warpAffine : ndarray -> Matrix -> Z * Z -> option ndarray.
Variable predict_batch : list ndarray -> option (list Embedding).
Variable search : Embedding -> Q -> Result (option (string * string * Q)).
Variable draw : ndarray -> list ResultItem -> ndarray.
Variable imencode : ndarray -> bool * Bytes.

(** With five landmarks and the default size 112 neither assertion of
    [align_and_crop] fails. *)
Lemma align_112_no_assertion img lms :
  length lms = 5 ->
  align_and_crop estimateAffinePartial2D warpAffine img lms 112 <> Raise AssertionError.
Proof.
  intros Hlen. rewrite asserts_pass; [|assumption|left; reflexivity].
  destruct (estimateAffinePartial2D lms (dst 112)) as [M inl].
  destruct (degenerate inl).
  - vm_compute. discriminate.
  - destruct (warpAffine img M (112%Z, 112%Z)); simpl; discriminate.
Qed.

Lemma align_faces_filter frame dets :
  align_faces estimateAffinePartial2D warpAffine frame dets =
  align_faces estimateAffinePartial2D warpAffine frame
    (filter (fun fd => has_five_landmarks fd = true) dets).
Proof.
  induction dets as [|fd dets IH]; [reflexivity|].
  rewrite filter_cons. unfold has_five_landmarks at 1.
  destruct (decide ((length (landmarks fd) =? 5) = true)) as [H|H]; simpl.
  - rewrite H.
    destruct (align_and_crop estimateAffinePartial2D warpAffine frame (landmarks fd) 112)
      as [[a M]|e]; [|reflexivity].
    rewrite <- IH. reflexivity.
  - apply not_true_is_false in H. rewrite H. exact IH.
Qed.

Lemma align_faces_calls frame dets :
  Forall (fun lms => length lms = 5)
    (fst (align_faces estimateAffinePartial2D warpAffine frame dets)).
Proof.
  induction dets as [|fd dets IH]; simpl; [constructor|].
  destruct (length (landmarks fd) =? 5) eqn:H; [|exact IH].
  apply Nat.eqb_eq in H.
  destruct (align_and_crop estimateAffinePartial2D warpAffine frame (landmarks fd) 112)
    as [[a M]|e].
  - destruct (align_faces estimateAffinePartial2D warpAffine frame dets) as [calls r].
    simpl in *. constructor; assumption.
  - simpl. constructor; [assumption|constructor].
Qed.

Lemma align_faces_no_assertion frame dets :
  snd (align_faces estimateAffinePartial2D warpAffine frame dets) <> Raise AssertionError.
Proof.
  induction dets as [|fd dets IH]; simpl; [discriminate|].
  destruct (length (landmarks fd) =? 5) eqn:H; [|exact IH].
  apply Nat.eqb_eq in H. pose proof (align_112_no_assertion frame _ H) as Hna.
  destruct (align_and_crop estimateAffinePartial2D warpAffine frame (landmarks fd) 112)
    as [[a M]|e].
  - destruct (align_faces estimateAffinePartial2D warpAffine frame dets) as [calls r].
    simpl in *. destruct r as [[faces meta]|e]; simpl.
    + destruct (0 <? size a)%Z; discriminate.
    + exact IH.
  - simpl. intros [= ->]. apply Hna. reflexivity.
Qed.

(** C8.  In one pass of the recognise-and-render stage, whatever the
    detections of the frame are: every call of [align_and_crop] gets exactly
    5 landmarks and none ends in its [AssertionError]; the aligned faces, the
    recognition results and the pass as a whole are what they would be if the
    detections with a landmark count other than 5 were not in the list; and
    the pass continues the loop. *)
Theorem non_five_landmark_detections_skipped
    (has_rec_model : bool) (threshold : Q) (frame : ndarray)
    (dets : list FaceData) (output_queue : list (option Bytes)) :
  let five := filter (fun fd => has_five_landmarks fd = true) dets in
  Forall (fun lms => length lms = 5)
    (fst (align_faces estimateAffinePartial2D warpAffine frame dets)) /\
  snd (align_faces estimateAffinePartial2D warpAffine frame dets) <> Raise AssertionError /\
  align_faces estimateAffinePartial2D warpAffine frame dets =
    align_faces estimateAffinePartial2D warpAffine frame five /\
  recognize estimateAffinePartial2D warpAffine predict_batch search
      has_rec_model threshold frame dets =
    recognize estimateAffinePartial2D warpAffine predict_batch search
      has_rec_model threshold frame five /\
  postprocessor_pass estimateAffinePartial2D warpAffine predict_batch search draw imencode
      has_rec_model threshold (Some (frame, dets)) output_queue =
    postprocessor_pass estimateAffinePartial2D warpAffine predict_batch search draw imencode
      has_rec_model threshold (Some (frame, five)) output_queue /\
  fst (postprocessor_pass estimateAffinePartial2D warpAffine predict_batch search draw imencode
         has_rec_model threshold (Some (frame, dets)) output_queue) = Continue.
Proof.
  intros five.
  assert (Hrec :
    recognize estimateAffinePartial2D warpAffine predict_batch search
      has_rec_model threshold frame dets =
    recognize estimateAffinePartial2D warpAffine predict_batch search
      has_rec_model threshold frame five).
  { unfold recognize. rewrite (align_faces_filter frame dets). fold five.
    destruct has_rec_model; [|rewrite !andb_false_r; reflexivity].
    rewrite !andb_true_r.
    destruct five as [|fd five'] eqn:E.
    - simpl. destruct (bool_decide (dets <> [])); reflexivity.
    - assert (dets <> []) as Hne.
      { intros ->. subst five. discriminate E. }
      rewrite (bool_decide_eq_true_2 _ Hne).
      rewrite bool_decide_eq_true_2 by discriminate. reflexivity. }
  split; [apply align_faces_calls|].
  split; [apply align_faces_no_assertion|].
  split; [apply align_faces_filter|].
  split; [exact Hrec|].
  split.
  - unfold postprocessor_pass. rewrite Hrec. reflexivity.
  - unfold postprocessor_pass.
    destruct (recognize _ _ _ _ _ _ _ _) as [items|e]; [|reflexivity].
    destruct (imencode _) as [flag enc]. destruct flag; [|reflexivity].
    destruct (Queue.put_nowait _ _); reflexivity.
Qed.

End PostprocessProperties.

(** ** [FaceStreamPipeline.stop] run on its own *)

Section StopProperties.

Import ModelManager.
Import Queue.
Import Pipeline.

Context {Frame Dets Bytes : Type}.

Local Notation "'Engine'" := (@FaceStreamPipeline Frame Dets Bytes).

Lemma drain_empty {A} (q : list A) : drain q = [].
Proof. induction q; simpl; auto. Qed.

(** A call that finds the stop flag set changes neither the engine nor the
    pool. *)
Lemma stop_flag_set_noop still_alive (e : Engine) p :
  stop_event e = true -> stop still_alive e p = Some (e, p).
Proof. intros H. unfold stop. rewrite H. reflexivity. Qed.

Lemma stop_sets_flag still_alive (e e' : Engine) p p' :
  stop still_alive e p = Some (e', p') -> stop_event e' = true.
Proof.
  unfold stop. destruct (stop_event e) eqn:E.
  - intros [= <- <-]. exact E.
  - destruct (cap_is_opened _); simpl;
      (destruct (models e) as [m|]; [destruct (release m p)|]);
      intros [= <- <-]; reflexivity.
Qed.

(** X11.  Calling [stop] again after a completed [stop] has no effect. *)
Lemma stop_twice still_alive still_alive' (e e' : Engine) p p' :
  stop still_alive e p = Some (e', p') ->
  stop still_alive' e' p' = Some (e', p').
Proof. intros H. apply stop_flag_set_noop. eapply stop_sets_flag; eauto. Qed.

(** X12.  A first [stop] on an engine that holds [m] gives [m] back, whatever
    the joins reported. *)
Lemma stop_releases_owned_set still_alive (e : Engine) p m :
  stop_event e = false -> models e = Some m -> qsize p < pool_size p ->
  exists e', stop still_alive e p =
               Some (e', {| pool_size := pool_size p; _pool := _pool p ++ [m] |}) /\
             models e' = None /\ stop_event e' = true.
Proof.
  intros Hflag Hm Hroom. unfold stop. rewrite Hflag.
  destruct (cap_is_opened _); simpl; rewrite Hm; unfold release;
    (destruct (decide (qsize p < pool_size p)); [|contradiction]);
    eexists; split; try reflexivity; simpl; auto.
Qed.

(** C9, as the code has it.  A [stop] that finds the stop flag clear leaves
    the three intermediate queues empty when it returns, and does not touch
    the session's output queue. *)
Theorem stop_drains_intermediate_queues
    (still_alive : StageName -> bool) (e e' : Engine) (p p' : ModelPool)
    (Hflag : stop_event e = false)
    (Hstop : stop still_alive e p = Some (e', p')) :
  preprocess_queue e' = [] /\
  inference_queue e' = [] /\
  postprocess_queue e' = [] /\
  output_queue e' = output_queue e.
Proof.
  revert Hstop. unfold stop. rewrite Hflag.
  destruct (cap_is_opened _); simpl;
    (destruct (models e) as [m|]; [destruct (release m p)|]);
    intros [= <- <-]; simpl; rewrite ?drain_empty; auto.
Qed.

End StopProperties.

Section StopExamples.

Import ModelManager.
Import Pipeline.
Import Scenarios.

Lemma stop_drains_intermediate_queues_witness :
  stop (fun _ => true) busy_engine lent_pool = Some (busy_engine_stopped, returned_pool) /\
  preprocess_queue busy_engine_stopped = [] /\
  inference_queue busy_engine_stopped = [] /\
  postprocess_queue busy_engine_stopped = [] /\
  output_queue busy_engine_stopped = output_queue busy_engine.
Proof.
  split; [reflexivity|].
  apply (stop_drains_intermediate_queues (fun _ => true)
           busy_engine busy_engine_stopped lent_pool returned_pool);
    reflexivity.
Defined.

(** C9 as stated fails: [stop] does not drain the output queue.  The two
    encoded frames that were waiting in it are still there afterwards. *)
Lemma stop_leaves_output_queue :
  stop (fun _ => false) busy_engine lent_pool = Some (busy_engine_stopped, returned_pool) /\
  output_queue busy_engine_stopped = [Some 1; Some 2] /\
  ~ (forall (still_alive : StageName -> bool)
            (e e' : @FaceStreamPipeline nat unit nat) (p p' : ModelPool),
       stop still_alive e p = Some (e', p') ->
       preprocess_queue e' = [] /\ inference_queue e' = [] /\
       postprocess_queue e' = [] /\ output_queue e' = []).
Proof.
  split; [reflexivity|]. split; [reflexivity|].
  intros H.
  destruct (H (fun _ => false) busy_engine busy_engine_stopped lent_pool returned_pool eq_refl)
    as (_ & _ & _ & Hout).
  discriminate Hout.
Qed.

(** What [stop] cannot promise: a stage thread that was blocked in a [put]
    when [stop] gave up joining it completes the [put] once the drain has
    made room, after [stop] has returned. *)
Lemma blocked_stage_refills_after_stop :
  run blocked_stage_schedule file_world =
    Some (blocked_stage_world, EvAcquired (1, 2) :: map EvRead (seq 0 31)) /\
  preprocessor blocked_stage_world = P_put (Some 30) /\
  preprocessor_step blocked_stage_world = None /\
  world_from blocked_stage_world (replicate 10 AManager) = after_stop_world /\
  manager after_stop_world = M_end /\
  inference_queue (eng after_stop_world) = [] /\
  preprocessor_step after_stop_world = Some (refilled_world, []) /\
  inference_queue (eng refilled_world) = [Some 30].
Proof.
  split; [vm_compute; reflexivity|].
  split; [reflexivity|]. split; [vm_compute; reflexivity|].
  split; [vm_compute; reflexivity|]. split; [reflexivity|].
  split; [reflexivity|]. split; [vm_compute; reflexivity|reflexivity].
Qed.

End StopExamples.

(** ** The running pipeline *)

Section PipelineProperties.

Import ModelManager.
Import Queue.
Import Pipeline.

Context {Frame Dets Bytes : Type}.

Local Notation "'World'" := (@Pipeline.World Frame Dets Bytes).
Local Notation "'Event'" := (@Pipeline.Event Frame Bytes).
Local Notation "'Actor'" := (@Pipeline.Actor Frame Dets Bytes).

(** A property of world and trace that every step keeps is kept by every
    schedule. *)
Lemma run_invariant (I : World -> list Event -> Prop) :
  (forall (a : Actor) w tr w' ev, I w tr -> step a w = Some (w', ev) -> I w' (tr ++ ev)) ->
  forall (sched : list Actor) w tr w' ev,
    I w tr -> run sched w = Some (w', ev) -> I w' (tr ++ ev).
Proof.
  intros Hstep sched. induction sched as [|a sched IH]; intros w tr w' ev HI; simpl.
  - intros [= <- <-]. rewrite app_nil_r. exact HI.
  - destruct (step a w) as [[w1 ev1]|] eqn:E1; [|discriminate].
    destruct (run sched w1) as [[w2 ev2]|] eqn:E2; [|discriminate].
    intros [= <- <-]. rewrite app_assoc. eapply IH; eauto.
Qed.

Ltac sub :=
  first
    [ reflexivity
    | apply sublist_nil_l
    | apply sublist_skip; sub
    | apply sublist_app; [reflexivity | sub]
    | apply sublist_cons; sub
    | apply sublist_inserts_l; sub
    | apply sublist_inserts_r; sub ].

Ltac open_world w :=
  let e := fresh "e" in
  destruct w as [? e ? ? ? ? ? ?]; destruct e; simpl in *.

Ltac step_cases :=
  repeat (simplify_eq; simpl in *;
          match goal with
          | H : context [match ?x with _ => _ end] |- _ => destruct x eqn:?
          | H : context [if ?x then _ else _] |- _ => destruct x eqn:?
          end);
  simplify_eq; simpl in *.

Lemma stop_step_in_flight pc (w : World) pc' w' ev :
  stop_step pc w = Some (pc', w', ev) ->
  reader w' = reader w /\ preprocessor w' = preprocessor w /\
  inference w' = inference w /\ postprocessor w' = postprocessor w /\
  driver w' = driver w /\ manager w' = manager w /\
  output_queue (eng w') = output_queue (eng w) /\
  frames_read ev = [] /\ frames_published ev = [] /\
  in_flight w' `sublist_of` in_flight w.
Proof.
  intros H. open_world w. unfold stop_step in H. simpl in H.
  destruct pc; step_cases; unfold in_flight; simpl;
    rewrite ?drain_empty; simpl; repeat split; try reflexivity; sub.
Qed.

Ltac flat :=
  unfold in_flight; simpl;
  repeat match goal with
         | |- context [match ?x with _ => _ end] =>
             is_var x;
             match type of x with
             | option _ => destruct x
             | prod _ _ => destruct x
             end; simpl
         end;
  rewrite ?omap_app; simpl; rewrite ?app_nil_r, <- ?app_assoc; simpl.

(** One step moves frames towards the output, adds a frame just read at the
    far end, or discards frames; it never reorders or copies them. *)
Lemma step_in_flight (a : Actor) (w w' : World) ev :
  step a w = Some (w', ev) ->
  frames_published ev ++ in_flight w' `sublist_of` in_flight w ++ frames_read ev.
Proof.
  intros H. destruct a; simpl in H.
  - open_world w. unfold reader_step, put_nowait in H. simpl in H.
    step_cases; flat; sub.
  - open_world w. unfold preprocessor_step, put_nowait in H. simpl in H.
    step_cases; flat; sub.
  - open_world w. unfold inference_step, put_nowait in H. simpl in H.
    step_cases; flat; sub.
  - open_world w. unfold postprocessor_step, put_nowait in H. simpl in H.
    step_cases; flat; sub.
  - unfold driver_step in H.
    destruct (driver w) eqn:Ed.
    + open_world w. unfold acquire in H. simpl in H. step_cases; flat; sub.
    + open_world w. step_cases; flat; sub.
    + open_world w. step_cases; flat; sub.
    + open_world w. step_cases; flat; sub.
    + destruct (stop_step s w) as [[[pc' w1] ev1]|] eqn:Es; [|discriminate].
      apply stop_step_in_flight in Es.
      destruct Es as (Hr & Hp & Hi & Ho & _ & _ & _ & Hre & Hpu & Hsub).
      assert (in_flight w' = in_flight w1 /\ ev = ev1) as [-> ->].
      { destruct pc'; simplify_eq; split; reflexivity. }
      rewrite Hre, Hpu, app_nil_r. exact Hsub.
    + discriminate.
  - unfold manager_step in H.
    destruct (manager w) eqn:Em.
    + destruct (driver_is_alive w); simplify_eq; simpl; rewrite app_nil_r; reflexivity.
    + destruct (stop_step s w) as [[[pc' w1] ev1]|] eqn:Es; [|discriminate].
      apply stop_step_in_flight in Es.
      destruct Es as (Hr & Hp & Hi & Ho & _ & _ & _ & Hre & Hpu & Hsub).
      assert (in_flight w' = in_flight w1 /\ ev = ev1) as [-> ->].
      { destruct pc'; simplify_eq; split; reflexivity. }
      rewrite Hre, Hpu, app_nil_r. exact Hsub.
    + discriminate.
  - open_world w. unfold feed_step in H. simpl in H. step_cases; flat; sub.
  - open_world w. unfold other_step, acquire, release in H. simpl in H.
    step_cases; flat; sub.
Qed.

Lemma frames_read_app (tr1 tr2 : list Event) :
  frames_read (tr1 ++ tr2) = frames_read tr1 ++ frames_read tr2.
Proof. apply omap_app. Qed.

Lemma frames_published_app (tr1 tr2 : list Event) :
  frames_published (tr1 ++ tr2) = frames_published tr1 ++ frames_published tr2.
Proof. apply omap_app. Qed.

Lemma step_order_inv (a : Actor) w tr w' ev :
  order_inv w tr -> step a w = Some (w', ev) -> order_inv w' (tr ++ ev).
Proof.
  unfold order_inv. intros HI Hs. apply step_in_flight in Hs.
  rewrite frames_read_app, frames_published_app, <- app_assoc.
  transitivity (frames_published tr ++ in_flight w ++ frames_read ev).
  - apply sublist_app; [reflexivity|exact Hs].
  - rewrite app_assoc. apply sublist_app; [exact HI|reflexivity].
Qed.

(** C6.  In every run of a session, the frames whose encodings entered
    the output queue, in the order in which they entered it, form a
    subsequence of the frames the capture stage read, in the order in which
    it read them. *)
Theorem published_subsequence_of_read
    (p : ModelPool) (isdigit : bool) (sched : list Actor) (w : World) (tr : list Event)
    (Hrun : run sched (new_world p isdigit []) = Some (w, tr)) :
  frames_published tr `sublist_of` frames_read tr.
Proof.
  pose proof (run_invariant order_inv step_order_inv sched
                (new_world p isdigit []) [] w tr) as H.
  simpl in H. unfold order_inv in H at 1. simpl in H.
  specialize (H (sublist_nil_l _) Hrun). unfold order_inv in H.
  etransitivity; [|exact H]. apply sublist_inserts_r. reflexivity.
Qed.

Ltac bools :=
  repeat match goal with
         | H : bool_decide _ = true |- _ => apply bool_decide_eq_true in H
         | H : bool_decide _ = false |- _ => apply bool_decide_eq_false in H
         end.

Lemma stop_step_bounded pc (w : World) pc' w' ev :
  stop_step pc w = Some (pc', w', ev) -> queues_bounded w -> queues_bounded w'.
Proof.
  intros H. open_world w. unfold stop_step in H. simpl in H.
  unfold queues_bounded. simpl.
  destruct pc; step_cases; rewrite ?drain_empty; simpl; lia.
Qed.

(** No queue ever holds more than [maxsize] elements. *)
Lemma step_bounded (a : Actor) (w w' : World) ev :
  step a w = Some (w', ev) -> queues_bounded w -> queues_bounded w'.
Proof.
  intros H. destruct a; simpl in H.
  - open_world w. unfold reader_step, put_nowait, full in H. simpl in H.
    unfold queues_bounded, maxsize in *. simpl.
    step_cases; bools; rewrite ?length_app; simpl; lia.
  - open_world w. unfold preprocessor_step, put_nowait, full in H. simpl in H.
    unfold queues_bounded, maxsize in *. simpl.
    step_cases; bools; rewrite ?length_app; simpl; lia.
  - open_world w. unfold inference_step, put_nowait, full in H. simpl in H.
    unfold queues_bounded, maxsize in *. simpl.
    step_cases; bools; rewrite ?length_app; simpl; lia.
  - open_world w. unfold postprocessor_step, put_nowait, full in H. simpl in H.
    unfold queues_bounded, maxsize in *. simpl.
    step_cases; bools; rewrite ?length_app; simpl; lia.
  - unfold driver_step in H.
    destruct (driver w) eqn:Ed.
    + open_world w. unfold acquire in H. simpl in H. unfold queues_bounded. simpl.
      step_cases; lia.
    + open_world w. unfold queues_bounded. simpl. step_cases; lia.
    + open_world w. unfold queues_bounded. simpl. step_cases; lia.
    + open_world w. unfold queues_bounded. simpl. step_cases; lia.
    + destruct (stop_step s w) as [[[pc' w1] ev1]|] eqn:Es; [|discriminate].
      intros Hb. apply (stop_step_bounded _ _ _ _ _ Es) in Hb.
      destruct pc'; simplify_eq; exact Hb.
    + discriminate.
  - unfold manager_step in H.
    destruct (manager w) eqn:Em.
    + destruct (driver_is_alive w); simplify_eq; auto.
    + destruct (stop_step s w) as [[[pc' w1] ev1]|] eqn:Es; [|discriminate].
      intros Hb. apply (stop_step_bounded _ _ _ _ _ Es) in Hb.
      destruct pc'; simplify_eq; exact Hb.
    + discriminate.
  - open_world w. unfold feed_step in H. simpl in H. unfold queues_bounded. simpl.
    step_cases; lia.
  - open_world w. unfold other_step, acquire, release in H. simpl in H.
    unfold queues_bounded. simpl. step_cases; lia.
Qed.

Lemma run_bounded (sched : list Actor) (w w' : World) ev :
  run sched w = Some (w', ev) -> queues_bounded w -> queues_bounded w'.
Proof.
  intros Hrun Hb.
  apply (run_invariant (fun w _ => queues_bounded w)
           (fun a w tr w' ev HI Hs => step_bounded a w w' ev Hs HI)
           sched w [] w' ev Hb Hrun).
Qed.

(** C5.  In every state a session can reach, the preprocess queue holds at
    most 30 frames; the capture thread, while in its loop, can always take
    its next step, whatever [cap.read()] returns; and when it has read a
    frame while the queue holds 30, that frame is discarded, the queue is
    left as it was and the thread is back at the head of its loop. *)
Theorem capture_drops_newest_without_blocking
    (p : ModelPool) (isdigit : bool) (sched : list Actor) (w : World) (tr : list Event)
    (Hrun : run sched (new_world p isdigit []) = Some (w, tr)) :
  length (preprocess_queue (eng w)) <= 30 /\
  (forall o, reader w = R_while \/ reader w = R_body -> is_Some (reader_step o w)) /\
  (forall f,
     reader w = R_body -> cap_is_opened (eng w) = true ->
     length (preprocess_queue (eng w)) = 30 ->
     reader_step (ReadFrame f) w = Some (with_reader R_while w, [EvRead f; EvDropped f]) /\
     put_nowait (Some f) (preprocess_queue (eng w)) = None).
Proof.
  split; [|split].
  - apply run_bounded in Hrun.
    + destruct Hrun as [H _]. exact H.
    + unfold queues_bounded, maxsize. simpl. lia.
  - intros o [Hr|Hr]; unfold reader_step; rewrite Hr.
    + destruct (stop_event (eng w)); eauto.
    + destruct (negb (cap_is_opened (eng w))); [eauto|].
      destruct o as [f|].
      * destruct (put_nowait (Some f) (preprocess_queue (eng w))); eauto.
      * destruct (negb (video_source_isdigit (eng w))); eauto.
  - intros f Hr Hc Hlen. unfold reader_step. rewrite Hr, Hc. simpl.
    assert (put_nowait (Some f) (preprocess_queue (eng w)) = None) as ->.
    { unfold put_nowait, full, maxsize. rewrite Hlen. reflexivity. }
    auto.
Qed.

Lemma sentinels_app q (tr1 tr2 : list Event) :
  sentinels q (tr1 ++ tr2) = sentinels q tr1 + sentinels q tr2.
Proof. unfold sentinels. rewrite filter_app, length_app. reflexivity. Qed.

Lemma sentinels_lost_app (tr1 tr2 : list Event) :
  sentinels_lost (tr1 ++ tr2) = sentinels_lost tr1 + sentinels_lost tr2.
Proof. unfold sentinels_lost. rewrite filter_app, length_app. reflexivity. Qed.

Lemma nones_app {A} (q1 q2 : list (option A)) :
  nones (q1 ++ q2) = nones q1 + nones q2.
Proof. unfold nones. rewrite filter_app, length_app. reflexivity. Qed.

Lemma nones_cons_none {A} (q : list (option A)) : nones (None :: q) = S (nones q).
Proof. reflexivity. Qed.

Lemma nones_cons_some {A} (x : A) (q : list (option A)) : nones (Some x :: q) = nones q.
Proof. reflexivity. Qed.

Ltac counts :=
  repeat match goal with
         | |- context [drain ?q] => rewrite (drain_empty q)
         end;
  repeat first
    [ rewrite sentinels_app | rewrite sentinels_lost_app | rewrite nones_app
    | rewrite nones_cons_none | rewrite nones_cons_some ];
  repeat match goal with
         | |- context [@nones ?A []] => change (@nones A []) with 0
         end;
  repeat match goal with
         | |- context [sentinels ?q [?e]] =>
             let v := eval vm_compute in (sentinels q [e]) in
             change (sentinels q [e]) with v
         | |- context [sentinels_lost [?e]] =>
             let v := eval vm_compute in (sentinels_lost [e]) in
             change (sentinels_lost [e]) with v
         | |- context [sentinels ?q []] => change (sentinels q []) with 0
         | |- context [sentinels_lost []] => change (sentinels_lost []) with 0
         end.

Lemma stop_step_sentinels pc (w : World) pc' w' ev tr :
  stop_step pc w = Some (pc', w', ev) -> sentinel_inv w tr ->
  sentinel_inv w' (tr ++ ev) /\ driver w' = driver w /\ manager w' = manager w.
Proof.
  intros H. open_world w. unfold stop_step in H. simpl in H.
  unfold sentinel_inv, sentinels_before_inference, sentinels_before_postprocess. simpl.
  destruct pc; step_cases; intros (H1 & H2 & H3 & H4 & H5); counts;
    rewrite ?Nat.add_0_r; repeat split; auto; try lia.
Qed.

#[local] Opaque nones.

Ltac opts :=
  repeat match goal with
         | |- context [match ?x with _ => _ end] =>
             is_var x;
             match type of x with
             | option _ => destruct x
             | prod _ _ => destruct x
             end
         | H : context [nones (?o :: _)] |- _ => is_var o; destruct o
         end;
  rewrite ?nones_cons_none, ?nones_cons_some in *.

Ltac early_driver H :=
  match goal with
  | |- match ?d with _ => _ end =>
      destruct d; auto; destruct H as (? & ? & ? & ?); simplify_eq
  | |- _ => idtac
  end.

(** Every step keeps the sentinel bookkeeping. *)
Lemma step_sentinels (a : Actor) (w : World) tr w' ev :
  sentinel_inv w tr -> step a w = Some (w', ev) -> sentinel_inv w' (tr ++ ev).
Proof.
  intros HI H. revert HI. destruct a; simpl in H.
  - open_world w. unfold reader_step, put_nowait in H. simpl in H.
    unfold sentinel_inv, sentinels_before_inference, sentinels_before_postprocess. simpl.
    step_cases; intros (H1 & H2 & H3 & H4 & H5); opts; counts;
      rewrite ?Nat.add_0_r; repeat split; auto; try lia; early_driver H5.
  - open_world w. unfold preprocessor_step, put_nowait in H. simpl in H.
    unfold sentinel_inv, sentinels_before_inference, sentinels_before_postprocess. simpl.
    step_cases; intros (H1 & H2 & H3 & H4 & H5); opts; counts;
      rewrite ?Nat.add_0_r; repeat split; auto; try lia; early_driver H5.
  - open_world w. unfold inference_step, put_nowait in H. simpl in H.
    unfold sentinel_inv, sentinels_before_inference, sentinels_before_postprocess. simpl.
    step_cases; intros (H1 & H2 & H3 & H4 & H5); opts; counts;
      rewrite ?Nat.add_0_r; repeat split; auto; try lia; early_driver H5.
  - open_world w. unfold postprocessor_step, put_nowait in H. simpl in H.
    unfold sentinel_inv, sentinels_before_inference, sentinels_before_postprocess. simpl.
    step_cases; intros (H1 & H2 & H3 & H4 & H5); opts; counts;
      rewrite ?Nat.add_0_r; repeat split; auto; try lia; early_driver H5.
  - unfold driver_step in H.
    destruct (driver w) eqn:Ed.
    + open_world w. unfold acquire in H. simpl in H.
      unfold sentinel_inv, sentinels_before_inference, sentinels_before_postprocess. simpl.
      step_cases; intros (H1 & H2 & H3 & H4 & H5); counts;
        rewrite ?Nat.add_0_r; repeat split; auto; try lia; try tauto.
    + open_world w.
      unfold sentinel_inv, sentinels_before_inference, sentinels_before_postprocess. simpl.
      step_cases; intros (H1 & H2 & H3 & H4 & H5); counts;
        rewrite ?Nat.add_0_r; repeat split; auto; try lia; try tauto.
    + open_world w.
      unfold sentinel_inv, sentinels_before_inference, sentinels_before_postprocess. simpl.
      step_cases; intros (H1 & H2 & H3 & H4 & (-> & -> & -> & ->)); counts;
        rewrite ?Nat.add_0_r; repeat split; auto; try lia; try tauto.
    + open_world w.
      unfold sentinel_inv, sentinels_before_inference, sentinels_before_postprocess. simpl.
      step_cases; intros (H1 & H2 & H3 & H4 & H5); counts;
        rewrite ?Nat.add_0_r; repeat split; auto; try lia; try tauto.
    + destruct (stop_step s w) as [[[pc' w1] ev1]|] eqn:Es; [|discriminate].
      intros HI. destruct (stop_step_sentinels _ _ _ _ _ tr Es HI) as (HI' & Hd & _).
      assert (ev = ev1) as -> by (destruct pc'; simplify_eq; reflexivity).
      assert (exists d, w' = with_driver d w1 /\ match d with D_finally _ | D_end => True | _ => False end)
        as (d & -> & Hdd) by (destruct pc'; simplify_eq; eexists; split; eauto; exact I).
      destruct HI' as (H1 & H2 & H3 & H4 & _).
      unfold sentinel_inv, sentinels_before_inference, sentinels_before_postprocess in *.
      destruct w1; simpl in *. repeat split; auto. destruct d; try contradiction; exact I.
    + discriminate.
  - unfold manager_step in H.
    destruct (manager w) eqn:Em.
    + destruct (driver_is_alive w); simplify_eq; rewrite app_nil_r; destruct w; auto.
    + destruct (stop_step s w) as [[[pc' w1] ev1]|] eqn:Es; [|discriminate].
      intros HI. destruct (stop_step_sentinels _ _ _ _ _ tr Es HI) as (HI' & Hd & _).
      assert (ev = ev1) as -> by (destruct pc'; simplify_eq; reflexivity).
      assert (exists m, w' = with_manager m w1) as (m & ->)
        by (destruct pc'; simplify_eq; eexists; eauto).
      destruct w1; exact HI'.
    + discriminate.
  - open_world w. unfold feed_step in H. simpl in H.
    unfold sentinel_inv, sentinels_before_inference, sentinels_before_postprocess. simpl.
    step_cases; intros (H1 & H2 & H3 & H4 & H5); counts;
      rewrite ?Nat.add_0_r; repeat split; auto; try lia; try tauto.
  - open_world w. unfold other_step, acquire, release in H. simpl in H.
    unfold sentinel_inv, sentinels_before_inference, sentinels_before_postprocess. simpl.
    step_cases; intros (H1 & H2 & H3 & H4 & H5); counts;
      rewrite ?Nat.add_0_r; repeat split; auto; try lia; try tauto.
Qed.

(** The feed yields the images that precede the sentinel and then ends,
    whether or not the driver thread is still alive. *)
Lemma feed_ends_at_sentinel (thread_alive : bool) (images : list string)
    (q : list (option string)) :
  StreamManager.feed (S (length images)) thread_alive (map Some images ++ None :: q) =
    (map StreamManager.chunk images, true).
Proof.
  induction images as [|b images IH].
  - destruct thread_alive; reflexivity.
  - cbn [length map app]. remember (S (length images)) as n.
    cbn [StreamManager.feed].
    replace (StreamManager.feed_pass thread_alive (Some b :: map Some images ++ None :: q))
      with (StreamManager.FeedYield (StreamManager.chunk b), map Some images ++ None :: q)
      by (destruct thread_alive; reflexivity).
    subst n. rewrite IH. reflexivity.
Qed.

Lemma sentinel_inv_new_world (p : ModelPool) (isdigit : bool) :
  sentinel_inv (new_world p isdigit [] : World) [].
Proof.
  unfold sentinel_inv, sentinels_before_inference, sentinels_before_postprocess.
  simpl. repeat split; reflexivity.
Qed.

Ltac fwd H1 H2 :=
  split; intros Hp Hs;
  first [ discriminate Hp | discriminate Hs
        | specialize (H1 Hp Hs); lia | specialize (H2 Hp Hs); lia | lia ].

Lemma stop_step_forward pc (w : World) pc' w' ev tr :
  stop_step pc w = Some (pc', w', ev) -> forward_inv w tr -> forward_inv w' (tr ++ ev).
Proof.
  intros H. open_world w. unfold stop_step in H. simpl in H.
  unfold forward_inv. simpl.
  destruct pc; step_cases; intros (H1 & H2); counts; fwd H1 H2.
Qed.

(** Every step keeps [forward_inv]: the stop flag is never cleared, and a
    stage 2 or 3 reaches its end either on a set flag or with the put of the
    sentinel. *)
Lemma step_forward (a : Actor) (w : World) tr w' ev :
  forward_inv w tr -> step a w = Some (w', ev) -> forward_inv w' (tr ++ ev).
Proof.
  intros HI H. revert HI. destruct a; simpl in H.
  - open_world w. unfold reader_step, put_nowait in H. simpl in H.
    unfold forward_inv. simpl. step_cases; intros (H1 & H2); counts; fwd H1 H2.
  - open_world w. unfold preprocessor_step, put_nowait in H. simpl in H.
    unfold forward_inv. simpl. step_cases; intros (H1 & H2); counts; fwd H1 H2.
  - open_world w. unfold inference_step, put_nowait in H. simpl in H.
    unfold forward_inv. simpl. step_cases; intros (H1 & H2); counts; fwd H1 H2.
  - open_world w. unfold postprocessor_step, put_nowait in H. simpl in H.
    unfold forward_inv. simpl. step_cases; intros (H1 & H2); counts; fwd H1 H2.
  - unfold driver_step in H.
    destruct (driver w) eqn:Ed.
    + open_world w. unfold acquire in H. simpl in H.
      unfold forward_inv. simpl. step_cases; intros (H1 & H2); counts; fwd H1 H2.
    + open_world w.
      unfold forward_inv. simpl. step_cases; intros (H1 & H2); counts; fwd H1 H2.
    + open_world w.
      unfold forward_inv. simpl. step_cases; intros (H1 & H2); counts; fwd H1 H2.
    + open_world w.
      unfold forward_inv. simpl. step_cases; intros (H1 & H2); counts; fwd H1 H2.
    + destruct (stop_step s w) as [[[pc' w1] ev1]|] eqn:Es; [|discriminate].
      intros HI. pose proof (stop_step_forward _ _ _ _ _ tr Es HI) as HI'.
      assert (ev = ev1) as -> by (destruct pc'; simplify_eq; reflexivity).
      assert (exists d, w' = with_driver d w1) as (d & ->)
        by (destruct pc'; simplify_eq; eexists; eauto).
      destruct w1; exact HI'.
    + discriminate.
  - unfold manager_step in H.
    destruct (manager w) eqn:Em.
    + destruct (driver_is_alive w); simplify_eq; rewrite app_nil_r; destruct w; auto.
    + destruct (stop_step s w) as [[[pc' w1] ev1]|] eqn:Es; [|discriminate].
      intros HI. pose proof (stop_step_forward _ _ _ _ _ tr Es HI) as HI'.
      assert (ev = ev1) as -> by (destruct pc'; simplify_eq; reflexivity).
      assert (exists m, w' = with_manager m w1) as (m & ->)
        by (destruct pc'; simplify_eq; eexists; eauto).
      destruct w1; exact HI'.
    + discriminate.
  - open_world w. unfold feed_step in H. simpl in H.
    unfold forward_inv. simpl. step_cases; intros (H1 & H2); counts; fwd H1 H2.
  - open_world w. unfold other_step, acquire, release in H. simpl in H.
    unfold forward_inv. simpl. step_cases; intros (H1 & H2); counts; fwd H1 H2.
Qed.

Lemma run_prefix (s1 s2 : list Actor) (w w' : World) tr :
  run (s1 ++ s2) w = Some (w', tr) ->
  exists w1 tr1 tr2,
    run s1 w = Some (w1, tr1) /\ run s2 w1 = Some (w', tr2) /\ tr = tr1 ++ tr2.
Proof.
  revert w tr. induction s1 as [|a s1 IH]; intros w tr; simpl.
  - intros H. exists w, [], tr. auto.
  - destruct (step a w) as [[wa eva]|]; [|discriminate].
    destruct (run (s1 ++ s2) wa) as [[w2 ev2]|] eqn:E; [|discriminate].
    intros [= <- <-]. destruct (IH _ _ E) as (w1 & tr1 & tr2 & -> & H2 & ->).
    exists w1, (eva ++ tr1), tr2. rewrite app_assoc. auto.
Qed.

(** C4, as the code has it.  In every run of a session the sentinel enters
    each queue at most once: the capture stage enqueues it exactly once when
    it leaves its loop; stages 2 and 3 forward it only if they received it,
    hence at most once each, and a stage 2 or 3 that has ended while the
    stop flag was still clear has forwarded it exactly once (a stage can end
    without forwarding only through the test of a set stop flag); stage 4
    offers one sentinel to the output queue when it ends, which enters the
    queue if there is room and is discarded if the queue is full; and a feed
    that dequeues the sentinel ends its sequence. *)
Theorem sentinel_at_most_once_per_queue
    (p : ModelPool) (isdigit : bool) (sched : list Actor) (w : World) (tr : list Event)
    (Hrun : run sched (new_world p isdigit []) = Some (w, tr)) :
  sentinels QPreprocess tr <= 1 /\
  sentinels QInference tr <= sentinels QPreprocess tr /\
  sentinels QPostprocess tr <= sentinels QInference tr /\
  sentinels QOutput tr <= 1 /\
  (reader w = R_end -> sentinels QPreprocess tr = 1) /\
  (postprocessor w = O_end -> sentinels QOutput tr + sentinels_lost tr = 1) /\
  (forall o, postprocessor w = O_final ->
     postprocessor_step o w =
       if full (output_queue (eng w))
       then Some (with_postprocessor O_end w, [EvSentinelLost])
       else Some (with_postprocessor O_end
                    (with_eng (set_output_queue (output_queue (eng w) ++ [None]) (eng w)) w),
                  [EvSentinel QOutput])) /\
  (forall thread_alive q,
     StreamManager.feed_pass thread_alive (None :: q) = (StreamManager.FeedBreak, q)) /\
  (forall thread_alive images q,
     StreamManager.feed (S (length images)) thread_alive (map Some images ++ None :: q) =
       (map StreamManager.chunk images, true)) /\
  (preprocessor w = P_end -> stop_event (eng w) = false -> sentinels QInference tr = 1) /\
  (inference w = I_end -> stop_event (eng w) = false -> sentinels QPostprocess tr = 1) /\
  (forall s1 s2 w1 tr1,
     sched = s1 ++ s2 -> run s1 (new_world p isdigit []) = Some (w1, tr1) ->
     stop_event (eng w1) = false ->
     (preprocessor w1 = P_end -> sentinels QInference tr = 1) /\
     (inference w1 = I_end -> sentinels QPostprocess tr = 1)).
Proof.
  assert (Hfwd : forall (s : list Actor) (w1 : World) (tr1 : list Event),
            run s (new_world p isdigit []) = Some (w1, tr1) -> forward_inv w1 tr1).
  { intros s w1 tr1 Hs.
    apply (run_invariant forward_inv step_forward s (new_world p isdigit []) [] w1 tr1);
      [|exact Hs].
    split; intros Hp; discriminate Hp. }
  pose proof (Hfwd _ _ _ Hrun) as [F1 F2].
  pose proof (run_invariant sentinel_inv step_sentinels sched
                (new_world p isdigit []) [] w tr) as H.
  simpl in H. specialize (H (sentinel_inv_new_world p isdigit) Hrun).
  destruct H as (H1 & H2 & H3 & H4 & _).
  assert (sentinels QPreprocess tr <= 1) by (rewrite H1; destruct (reader w); lia).
  assert (sentinels QOutput tr <= 1) by (destruct (postprocessor w); lia).
  do 4 (split; [lia|]).
  split; [|split; [|split; [|split; [|split; [|split; [|split]]]]]].
  - intros Hr. rewrite H1, Hr. reflexivity.
  - intros Ho. rewrite H4, Ho. reflexivity.
  - intros o Ho. unfold postprocessor_step, put_nowait. rewrite Ho.
    destruct (full (output_queue (eng w))); reflexivity.
  - intros [] q; reflexivity.
  - apply feed_ends_at_sentinel.
  - intros Hp Hs. specialize (F1 Hp Hs). lia.
  - intros Hi Hs. specialize (F2 Hi Hs). lia.
  - intros s1 s2 w1 tr1 -> Hs1 Hflag.
    destruct (run_prefix _ _ _ _ _ Hrun) as (w1' & tr1' & tr2 & Hs1' & _ & ->).
    rewrite Hs1 in Hs1'. injection Hs1' as <- <-.
    destruct (Hfwd _ _ _ Hs1) as [G1 G2].
    rewrite !sentinels_app in *.
    split; [intros Hp; specialize (G1 Hp Hflag)|intros Hi; specialize (G2 Hi Hflag)]; lia.
Qed.

(** The statement-by-statement [stop], run by a single caller without
    interference, computes the function [stop]. *)
Lemma stop_steps_compute_stop (still_alive : StageName -> bool) (w : World) :
  stop_steps 9 S_guard w =
    match stop still_alive (eng w) (model_pool w) with
    | Some (e', p') => Some (with_eng e' (with_pool p' w))
    | None => None
    end.
Proof.
  destruct w as [p e r pp inf po d m]. destruct e as [dg ms se c th q1 q2 q3 q4].
  destruct se; [reflexivity|].
  destruct c as [[|]|]; destruct ms as [rs|];
    cbn -[release drain]; rewrite ?drain_empty;
    try (destruct (release rs p)); reflexivity.
Qed.

End PipelineProperties.

(** ** Runs of one session *)

Section PipelineExamples.

Import ModelManager.
Import Queue.
Import Pipeline.
Import Scenarios.

Ltac by_decide :=
  match goal with
  | |- ?P => apply (bool_decide_eq_true_1 P); vm_compute; reflexivity
  end.

Lemma sentinel_at_most_once_per_queue_witness :
  run watched_schedule file_world = Some (watched_world, watched_trace) /\
  reader watched_world = R_end /\
  sentinels QPreprocess watched_trace = 1 /\
  sentinels QInference watched_trace <= 1 /\
  sentinels QPostprocess watched_trace <= 1 /\
  sentinels QOutput watched_trace <= 1 /\
  run finished_schedule file_world = Some (finished_world, finished_trace) /\
  stages_ended finished_world /\
  stop_event (eng finished_world) = false /\
  sentinels QInference finished_trace = 1 /\
  sentinels QPostprocess finished_trace = 1 /\
  sentinels QInference watched_trace = 1 /\
  sentinels QPostprocess watched_trace = 1.
Proof.
  assert (Hrun : run watched_schedule file_world = Some (watched_world, watched_trace))
    by (vm_compute; reflexivity).
  assert (Hfin : run finished_schedule file_world = Some (finished_world, finished_trace))
    by (vm_compute; reflexivity).
  destruct (sentinel_at_most_once_per_queue one_set_pool false watched_schedule
              watched_world watched_trace Hrun)
    as (H1 & H2 & H3 & H4 & H5 & _ & _ & _ & _ & _ & _ & Hpre).
  destruct (sentinel_at_most_once_per_queue one_set_pool false finished_schedule
              finished_world finished_trace Hfin)
    as (_ & _ & _ & _ & _ & _ & _ & _ & _ & F1 & F2 & _).
  destruct (Hpre finished_schedule teardown finished_world finished_trace)
    as [P1 P2]; [reflexivity|exact Hfin|reflexivity|].
  split; [exact Hrun|]. split; [reflexivity|].
  split; [apply H5; reflexivity|].
  split; [lia|]. split; [lia|]. split; [exact H4|].
  split; [exact Hfin|]. split; [repeat split; reflexivity|]. split; [reflexivity|].
  split; [apply F1; reflexivity|]. split; [apply F2; reflexivity|].
  split; [apply P1; reflexivity|apply P2; reflexivity].
Defined.

(** C4 as stated fails: when nobody reads the feed, the 30 encoded frames
    of a 30-frame file fill the output queue, and the sentinel that stage 4
    offers at the end is discarded.  All four stages and the driver have
    ended, and no sentinel has entered the output queue. *)
Lemma sentinel_lost_when_output_full :
  run unread_schedule file_world = Some (unread_world, unread_trace) /\
  stages_ended unread_world /\
  driver unread_world = D_end /\
  length (output_queue (eng unread_world)) = 30 /\
  (None ∉ output_queue (eng unread_world)) /\
  sentinels QPostprocess unread_trace = 1 /\
  sentinels QOutput unread_trace = 0 /\
  sentinels_lost unread_trace = 1 /\
  ~ (forall (sched : list Act) w tr,
       run sched file_world = Some (w, tr) -> stages_ended w ->
       sentinels QOutput tr = 1).
Proof.
  assert (Hrun : run unread_schedule file_world = Some (unread_world, unread_trace))
    by (vm_compute; reflexivity).
  assert (Hend : stages_ended unread_world) by (repeat split; reflexivity).
  split; [exact Hrun|]. split; [exact Hend|].
  split; [reflexivity|]. split; [reflexivity|].
  split; [by_decide|].
  split; [reflexivity|]. split; [reflexivity|]. split; [reflexivity|].
  intros H. specialize (H _ _ _ Hrun Hend). discriminate H.
Qed.

Lemma capture_drops_newest_without_blocking_witness :
  run saturating_schedule file_world = Some (saturated_world, saturated_trace) /\
  length (preprocess_queue (eng saturated_world)) = 30 /\
  reader_step (ReadFrame 30) saturated_world =
    Some (with_reader R_while saturated_world, [EvRead 30; EvDropped 30]) /\
  is_Some (reader_step ReadNothing saturated_world).
Proof.
  assert (Hrun : run saturating_schedule file_world = Some (saturated_world, saturated_trace))
    by (vm_compute; reflexivity).
  destruct (capture_drops_newest_without_blocking one_set_pool false saturating_schedule
              saturated_world saturated_trace Hrun)
    as (_ & Hlive & Hdrop).
  split; [exact Hrun|]. split; [reflexivity|]. split.
  - apply (Hdrop 30); reflexivity.
  - apply Hlive. right. reflexivity.
Defined.

Lemma published_subsequence_of_read_witness :
  run lossy_schedule file_world = Some (lossy_world, lossy_trace) /\
  frames_dropped lossy_trace = [30; 31] /\
  frames_published lossy_trace = [0; 1; 2] /\
  frames_published lossy_trace `sublist_of` frames_read lossy_trace.
Proof.
  assert (Hrun : run lossy_schedule file_world = Some (lossy_world, lossy_trace))
    by (vm_compute; reflexivity).
  split; [exact Hrun|]. split; [reflexivity|]. split; [reflexivity|].
  exact (published_subsequence_of_read one_set_pool false lossy_schedule
           lossy_world lossy_trace Hrun).
Defined.

(** C2 on the code.  The manager stops a session whose driver is still
    waiting in [acquire]; [stop] sets the flag and finds nothing to release.
    When the driver then obtains the set (1, 2), its own [stop] in the
    [finally] clause returns at the guard of line 79.  At the end every
    thread of the session has terminated, the engine still holds the set,
    the pool is empty, and neither the driver nor the manager has a step
    left: the set is never returned. *)
Theorem stop_before_late_acquire_leaks_set :
  run late_acquire_schedule waiting_world = Some (late_acquire_world, late_acquire_trace) /\
  driver late_acquire_world = D_end /\
  manager late_acquire_world = M_end /\
  stages_ended late_acquire_world /\
  (EvAcquired (1, 2) ∈ late_acquire_trace) /\
  releases (1, 2) late_acquire_trace = 0 /\
  models (eng late_acquire_world) = Some (1, 2) /\
  _pool (model_pool late_acquire_world) = [] /\
  (forall open_ok, driver_step open_ok late_acquire_world = None) /\
  manager_step late_acquire_world = None.
Proof.
  split; [vm_compute; reflexivity|].
  split; [reflexivity|]. split; [reflexivity|].
  split; [repeat split; reflexivity|].
  split; [apply list_elem_of_here|].
  split; [reflexivity|]. split; [reflexivity|]. split; [reflexivity|].
  split; [intros b; reflexivity|reflexivity].
Qed.

(** C10 on the code.  The driver and the manager both evaluate the guard
    of line 79 before either sets the flag; both go on, and both release
    (1, 2).  With capacity 2 the pool ends up full with two copies of (1, 2)
    while (3, 4) is still checked out; with capacity 1 the second [release]
    finds the queue full and its caller is blocked for good. *)
Theorem racing_stops_release_twice :
  run racing_schedule racing_world = Some (racing_end_world, racing_trace) /\
  driver racing_end_world = D_end /\
  manager racing_end_world = M_end /\
  releases (1, 2) racing_trace = 2 /\
  _pool (model_pool racing_end_world) = [(1, 2); (1, 2)] /\
  qsize (model_pool racing_end_world) = pool_size (model_pool racing_end_world) /\
  ((3, 4) ∉ _pool (model_pool racing_end_world)) /\
  manager racing_blocked_world = M_stop S_models /\
  stop_step S_models racing_blocked_world = None /\
  manager_step racing_blocked_world = None.
Proof.
  split; [vm_compute; reflexivity|].
  split; [reflexivity|]. split; [reflexivity|]. split; [reflexivity|].
  split; [reflexivity|]. split; [reflexivity|].
  split; [by_decide|].
  split; [reflexivity|]. split; reflexivity.
Qed.

End PipelineExamples.

(** ** [start_stream] *)

Section StreamManagerProperties.

Import ModelManager.
Import StreamManager.
Import Scenarios.

Local Open Scope Z_scope.

(** With a set available and a source that opens, the session is
    registered and the pool has one set less. *)
Lemma start_with_available_set default_lifetime new_id now req svc m rest :
  _pool (model_pool svc) = m :: rest ->
  exists stream_info,
    start_stream default_lifetime new_id now true req svc =
      (inr stream_info,
       {| model_pool := {| pool_size := pool_size (model_pool svc); _pool := rest |};
          active_streams :=
            <[new_id := {| info := stream_info; thread := {| exit_at := None |} |}]>
              (active_streams svc) |}).
Proof.
  intros Hp. unfold start_stream, run_start, acquire. rewrite Hp. simpl.
  eexists. reflexivity.
Qed.

(** With no set available the driver is still inside [acquire] when the
    grace interval of 0.2 s is over, so [is_alive()] is true and the session
    is registered; its thread ends 5 s after it was started. *)
Lemma start_on_exhausted_pool default_lifetime new_id now open_ok req svc :
  _pool (model_pool svc) = [] ->
  exists stream_info,
    start_stream default_lifetime new_id now open_ok req svc =
      (inr stream_info,
       {| model_pool := model_pool svc;
          active_streams :=
            <[new_id := {| info := stream_info;
                           thread := {| exit_at := Some (now + acquire_timeout_ms) |} |}]>
              (active_streams svc) |}) /\
    stream_id stream_info = new_id.
Proof.
  intros Hp. unfold start_stream, run_start, acquire. rewrite Hp.
  unfold is_alive, acquire_timeout_ms, grace_ms. simpl.
  assert ((now + 200 <? now + 5000) = true) as -> by (apply Z.ltb_lt; lia).
  simpl. destruct (model_pool svc). eexists. split; reflexivity.
Qed.

(** C3 on the code.  Capacity 2, three sessions started one second apart.
    The first two take the two sets.  The third finds the pool empty, and
    [start_stream] nevertheless returns its descriptor and registers it:
    200 ms after the start its driver thread is alive, waiting in an
    [acquire] that only times out after 5000 ms. *)
Theorem third_start_is_registered :
  fst first_start =
    inr {| stream_id := "s1"; source := "0"; started_at := 200;
           expires_at := Some 600200; lifetime_minutes := 10 |} /\
  fst second_start =
    inr {| stream_id := "s2"; source := "0"; started_at := 1200;
           expires_at := Some 601200; lifetime_minutes := 10 |} /\
  _pool (model_pool (snd second_start)) = [] /\
  fst third_start <> inl HTTP_503_SERVICE_UNAVAILABLE /\
  fst third_start =
    inr {| stream_id := "s3"; source := "0"; started_at := 2200;
           expires_at := Some 602200; lifetime_minutes := 10 |} /\
  thread <$> (active_streams (snd third_start) !! "s3"%string) =
    Some {| exit_at := Some 7000 |} /\
  is_alive {| exit_at := Some 7000 |} (2000 + grace_ms) = true.
Proof.
  split; [vm_compute; reflexivity|]. split; [vm_compute; reflexivity|].
  split; [vm_compute; reflexivity|].
  split; [vm_compute; discriminate|]. split; [vm_compute; reflexivity|].
  split; [vm_compute; reflexivity|reflexivity].
Qed.

End StreamManagerProperties.

(** * Further properties of the code *)

(** ** The model pool: release and disposal *)

Section PoolMore.

Import ModelManager.
Import Queue.
Import ModelPoolDispose.
Import Scenarios.

Lemma legal_release_takes_effect_witness :
  is_Some (pool_call (CallRelease (1, 2)) one_out_state).
Proof.
  apply (legal_release_takes_effect (1, 2) one_out_state).
  - reflexivity.
  - apply list_elem_of_here.
Defined.

(** X3.  [dispose] leaves the pool empty, whatever it held, and keeps its
    capacity; afterwards [acquire] finds nothing, a second [dispose] changes
    nothing, and the pool still accepts a [release]: the set a late [stop]
    gives back is available again. *)
Theorem dispose_empties_but_does_not_close (p : ModelPool) :
  qsize (dispose p) = 0 /\
  pool_size (dispose p) = pool_size p /\
  acquire (dispose p) = (None, dispose p) /\
  dispose (dispose p) = dispose p /\
  (forall m, 0 < pool_size p ->
     release m (dispose p) = Some {| pool_size := pool_size p; _pool := [m] |} /\
     fst (acquire {| pool_size := pool_size p; _pool := [m] |}) = Some m).
Proof.
  unfold dispose, qsize, acquire. simpl. rewrite !drain_empty. simpl.
  repeat split; try reflexivity.
  unfold release, qsize. simpl. destruct (decide (0 < pool_size p)); [reflexivity|lia].
Qed.

End PoolMore.

(** ** [align_and_crop]: failures and geometry *)

Section AlignMore.

Import ImageUtils.

Local Open Scope Z_scope.

Variable estimateAffinePartial2D : list Point -> list Point -> Matrix * option (list bool).
Variable warpAffine : ndarray -> Matrix -> Z * Z -> option ndarray.

(** X4.  [align_and_crop] ends in [AssertionError] exactly when it is given a
    number of landmarks other than 5 or a size that is a multiple of neither
    112 nor 128; with 5 landmarks, a negative admissible size and a
    degenerate alignment it ends in the [ValueError] of [np.zeros]. *)
Theorem align_and_crop_assertion_iff (img : ndarray) (landmarks : list Point) (image_size : Z) :
  (align_and_crop estimateAffinePartial2D warpAffine img landmarks image_size
     = Raise AssertionError
   <-> length landmarks <> 5%nat \/ (image_size mod 112 <> 0 /\ image_size mod 128 <> 0)) /\
  (length landmarks = 5%nat -> image_size < 0 ->
   image_size mod 112 = 0 \/ image_size mod 128 = 0 ->
   degenerate (snd (estimateAffinePartial2D landmarks (dst image_size))) = true ->
   align_and_crop estimateAffinePartial2D warpAffine img landmarks image_size
     = Raise ValueError).
Proof.
  split.
  - unfold align_and_crop.
    destruct (length landmarks =? 5)%nat eqn:El; simpl.
    + apply Nat.eqb_eq in El.
      destruct (image_size mod 112 =? 0) eqn:E1; simpl.
      * apply Z.eqb_eq in E1. split; [|intros [H|[H _]]; contradiction].
        destruct (estimateAffinePartial2D landmarks (dst image_size)) as [M inl].
        destruct (degenerate inl).
        -- unfold np_zeros. destruct (decide _); simpl; discriminate.
        -- destruct (warpAffine img M (image_size, image_size)); simpl; discriminate.
      * apply Z.eqb_neq in E1. destruct (image_size mod 128 =? 0) eqn:E2; simpl.
        -- apply Z.eqb_eq in E2. split; [|intros [H|[_ H]]; contradiction].
           destruct (estimateAffinePartial2D landmarks (dst image_size)) as [M inl].
           destruct (degenerate inl).
           ++ unfold np_zeros. destruct (decide _); simpl; discriminate.
           ++ destruct (warpAffine img M (image_size, image_size)); simpl; discriminate.
        -- apply Z.eqb_neq in E2. split; auto.
    + apply Nat.eqb_neq in El. split; auto.
  - intros Hlen Hneg Hmul Hdeg. rewrite asserts_pass by assumption.
    destruct (estimateAffinePartial2D landmarks (dst image_size)) as [M inl].
    simpl in Hdeg. rewrite Hdeg. unfold np_zeros.
    destruct (decide (0 <= image_size /\ 0 <= image_size /\ 0 <= 3)); [lia|reflexivity].
Qed.

End AlignMore.

Section AlignGeometry.

Import ImageUtils.

(** X5.  For every positive target size the five destination points lie inside
    the target image: both coordinates are between 0 and the size. *)
Theorem destination_points_inside_image (image_size : Z) (Hpos : (0 < image_size)%Z) :
  Forall (fun p : Point =>
            (0 <= fst p)%Q /\ (fst p <= inject_Z image_size)%Q /\
            (0 <= snd p)%Q /\ (snd p <= inject_Z image_size)%Q)
         (dst image_size).
Proof.
  unfold dst, ratio_and_diff_x.
  destruct (decide (image_size mod 112 = 0)%Z) as [_|_]; simpl;
    repeat constructor; simpl;
    unfold Qle, Qmult, Qplus, Qdiv, Qinv, inject_Z; simpl; lia.
Qed.

Lemma destination_points_inside_image_witness :
  Forall (fun p : Point =>
            (0 <= fst p)%Q /\ (fst p <= inject_Z 128)%Q /\
            (0 <= snd p)%Q /\ (snd p <= inject_Z 128)%Q)
         (dst 128).
Proof. apply (destination_points_inside_image 128). lia. Defined.

End AlignGeometry.

(** ** [_draw_results_on_frame] *)

Section DrawingProperties.

Import Postprocess.
Import Drawing.

Variable format_2f : Q -> string.
Variable getTextSize : string -> Z * Z.

(** A label that carries a similarity contains a space and is therefore
    never the word Unknown. *)
Lemma suffixed_label_not_unknown (n s : string) :
  (n +:+ " (" +:+ s +:+ ")")%string <> "Unknown"%string.
Proof.
  intros H.
  do 7 (destruct n as [|? n]; simpl in H; [discriminate H|injection H as _ H]).
  destruct n; discriminate H.
Qed.

Lemma color_green_iff (res : ResultItem) :
  color_of format_2f res = Green <-> name res <> "Unknown"%string.
Proof.
  unfold color_of, label_of.
  destruct (similarity res) as [sim|].
  - destruct (decide (name res = "Unknown"%string)) as [E|E].
    + rewrite (bool_decide_eq_false_2 _ (fun H => H E)).
      rewrite (bool_decide_eq_false_2 _ (fun H => H E)).
      split; [discriminate|intros H; contradiction].
    + rewrite (bool_decide_eq_true_2 _ E).
      rewrite (bool_decide_eq_true_2 _ (suffixed_label_not_unknown _ _)).
      split; auto.
  - destruct (decide (name res = "Unknown"%string)) as [E|E].
    + rewrite (bool_decide_eq_false_2 _ (fun H => H E)).
      split; [discriminate|intros H; contradiction].
    + rewrite (bool_decide_eq_true_2 _ E). split; auto.
Qed.

(** X7.  A face is framed in green exactly when its name is not Unknown,
    whatever its similarity, and red otherwise; the similarity is appended to
    the label only for a named face; and when the drawing loop runs to its
    end it has made three OpenCV calls for every result with a box and none
    for a result without one. *)
Theorem drawing_colours_and_calls (results : list ResultItem) :
  Forall (fun res =>
            (color_of format_2f res = Green <-> name res <> "Unknown"%string) /\
            (color_of format_2f res = Red <-> name res = "Unknown"%string) /\
            (name res = "Unknown"%string -> label_of format_2f res = "Unknown"%string) /\
            (similarity res = None -> label_of format_2f res = name res))
         results /\
  (forall calls,
     _draw_results_on_frame format_2f getTextSize results = (calls, Ok tt) ->
     length calls = 3 * length (filter (fun res => box res <> []) results)).
Proof.
  split.
  - apply Forall_forall. intros res _.
    pose proof (color_green_iff res) as Hg.
    split; [exact Hg|]. split; [|split].
    + destruct (color_of format_2f res) eqn:Ec.
      * split; [discriminate|]. intros E. apply Hg in E; [contradiction|reflexivity].
      * split; [|reflexivity]. intros _.
        destruct (decide (name res = "Unknown"%string)); [assumption|].
        assert (Red = Green) by (apply Hg; assumption). discriminate.
      * unfold color_of in Ec. destruct (bool_decide _); discriminate.
    + intros E. unfold label_of. destruct (similarity res); [|exact E].
      rewrite (bool_decide_eq_false_2 _ (fun H => H E)). exact E.
    + intros E. unfold label_of. rewrite E. reflexivity.
  - induction results as [|res rest IH]; intros calls; simpl.
    + intros [= <-]. reflexivity.
    + rewrite filter_cons. destruct (box res) as [|x1 [|y1 [|x2 [|y2 more]]]] eqn:Eb;
        try (intros [= _ ?]; discriminate).
      * destruct (decide ([] <> [])) as [H|_]; [contradiction|]. apply IH.
      * destruct (getTextSize (label_of format_2f res)) as [lw lh].
        destruct (_draw_results_on_frame format_2f getTextSize rest) as [cs r] eqn:Er.
        intros [= <- ->].
        destruct (decide (x1 :: y1 :: x2 :: y2 :: more <> [])) as [_|H];
          [|exfalso; apply H; discriminate].
        simpl. rewrite (IH cs eq_refl). lia.
Qed.

End DrawingProperties.

(** ** The feed and the registry of sessions *)

Section RegistryProperties.

Import ModelManager.
Import StreamManager.
Import StreamRegistry.
Import Scenarios.

Local Open Scope Z_scope.


Lemma stop_stream_deletes now sid (m : gmap string StreamContext) :
  (stop_stream now sid m).2 = delete sid m.
Proof.
  unfold stop_stream. destruct (m !! sid) eqn:E; simpl; [reflexivity|].
  symmetry. apply delete_id. exact E.
Qed.

Lemma stop_each_lookup now ids (m : gmap string StreamContext) sid :
  stop_each now ids m !! sid = if decide (sid ∈ ids) then None else m !! sid.
Proof.
  unfold stop_each. induction ids as [|i ids IH]; simpl.
  - destruct (decide (sid ∈ [])) as [H|_]; [inversion H|reflexivity].
  - rewrite stop_stream_deletes.
    destruct (decide (i = sid)) as [->|Hne].
    + rewrite lookup_delete_eq.
      destruct (decide (sid ∈ sid :: ids)) as [_|H]; [reflexivity|].
      exfalso. apply H. apply list_elem_of_here.
    + rewrite lookup_delete_ne by exact Hne. rewrite IH.
      destruct (decide (sid ∈ ids)) as [H|H];
        destruct (decide (sid ∈ i :: ids)) as [H'|H']; try reflexivity.
      * exfalso. apply H'. apply list_elem_of_further. exact H.
      * exfalso. apply elem_of_cons in H' as [->|H']; [congruence|contradiction].
Qed.

Lemma elem_of_keys_where (P : StreamContext -> bool) (m : gmap string StreamContext) sid :
  sid ∈ keys_where P m <-> exists ctx, m !! sid = Some ctx /\ P ctx = true.
Proof.
  unfold keys_where. rewrite list_elem_of_fmap. split.
  - intros ([k ctx] & -> & Hin). apply elem_of_map_to_list in Hin.
    apply map_lookup_filter_Some in Hin as [Hm HP]. eauto.
  - intros (ctx & Hm & HP). exists (sid, ctx). split; [reflexivity|].
    apply elem_of_map_to_list. apply map_lookup_filter_Some. auto.
Qed.

(** X14.  One pass of the expiry sweeper at time [now] removes exactly the
    sessions whose expiry time is set and has been reached; a session
    without an expiry time stays whatever the time, and every other entry is
    left as it was. *)
Theorem sweeper_removes_exactly_expired (now : Z) (m : gmap string StreamContext) (sid : string) :
  cleanup_pass now m !! sid =
    match m !! sid with
    | Some ctx =>
        match expires_at (info ctx) with
        | Some t => if t <=? now then None else Some ctx
        | None => Some ctx
        end
    | None => None
    end.
Proof.
  unfold cleanup_pass. rewrite stop_each_lookup.
  destruct (decide (sid ∈ keys_where (is_expired now) m)) as [H|H].
  - apply elem_of_keys_where in H as (ctx & -> & He). unfold is_expired in He.
    destruct (expires_at (info ctx)); [rewrite He; reflexivity|discriminate].
  - destruct (m !! sid) as [ctx|] eqn:E; [|reflexivity].
    destruct (expires_at (info ctx)) as [t|] eqn:Et; [|reflexivity].
    destruct (t <=? now) eqn:El; [|reflexivity].
    exfalso. apply H. apply elem_of_keys_where. exists ctx. split; [exact E|].
    unfold is_expired. rewrite Et. exact El.
Qed.

(** X15.  [stop_all_streams] leaves no session registered. *)
Theorem stop_all_streams_empties_registry (now : Z) (m : gmap string StreamContext) :
  stop_all_streams now m = ∅.
Proof.
  apply map_empty. intros sid. unfold stop_all_streams. rewrite stop_each_lookup.
  destruct (decide (sid ∈ keys_where (fun _ => true) m)) as [H|H]; [reflexivity|].
  destruct (m !! sid) as [ctx|] eqn:E; [|reflexivity].
  exfalso. apply H. apply elem_of_keys_where. eauto.
Qed.

Lemma start_stream_registers default_lifetime new_id now open_ok req svc stream_info svc' :
  start_stream default_lifetime new_id now open_ok req svc = (inr stream_info, svc') ->
  let lifetime := default default_lifetime (req_lifetime_minutes req) in
  stream_info =
    {| stream_id := new_id; source := req_source req; started_at := now + grace_ms;
       expires_at := if lifetime =? -1 then None
                     else Some (now + grace_ms + lifetime * 60000);
       lifetime_minutes := lifetime |} /\
  exists th, active_streams svc' =
               <[new_id := {| info := stream_info; thread := th |}]> (active_streams svc).
Proof.
  unfold start_stream.
  destruct (run_start (model_pool svc) open_ok now) as [th p].
  destruct (negb (is_alive th (now + grace_ms))); [discriminate|].
  intros [= <- <-]. simpl. split; [reflexivity|]. eexists. reflexivity.
Qed.

(** X16.  What a registered session's descriptor says about its end.  The
    lifetime is the request's, or the configured default when the request
    has none; the session starts 0.2 s after the call; a lifetime of -1
    gives no expiry time, so no sweeper pass ever finds it expired; any
    other lifetime L gives the expiry time start + L minutes, so that a
    lifetime of 0, or a negative one other than -1, is expired from the
    moment the session is registered. *)
Theorem registered_session_expiry
    (default_lifetime : Z) (new_id : string) (now : Z) (open_ok : bool)
    (req : StreamStartRequest) (svc : StreamManagerService)
    (stream_info : ActiveStreamInfo) (svc' : StreamManagerService)
    (Hstart : start_stream default_lifetime new_id now open_ok req svc = (inr stream_info, svc')) :
  let lifetime := default default_lifetime (req_lifetime_minutes req) in
  stream_id stream_info = new_id /\
  lifetime_minutes stream_info = lifetime /\
  started_at stream_info = now + grace_ms /\
  (lifetime = -1 ->
     expires_at stream_info = None /\
     forall th t, is_expired t {| info := stream_info; thread := th |} = false) /\
  (lifetime <> -1 ->
     expires_at stream_info = Some (started_at stream_info + lifetime * 60000) /\
     forall th t,
       is_expired t {| info := stream_info; thread := th |} = true <->
       started_at stream_info + lifetime * 60000 <= t) /\
  (lifetime <> -1 -> lifetime <= 0 ->
     forall th t, started_at stream_info <= t ->
       is_expired t {| info := stream_info; thread := th |} = true).
Proof.
  intros lifetime. apply start_stream_registers in Hstart as [-> _]. fold lifetime.
  simpl. split; [reflexivity|]. split; [reflexivity|]. split; [reflexivity|].
  unfold is_expired. simpl. split; [|split].
  - intros ->. simpl. auto.
  - intros Hne. apply Z.eqb_neq in Hne. rewrite Hne. split; [reflexivity|].
    intros th t. apply Z.leb_le.
  - intros Hne Hle th t Ht. apply Z.eqb_neq in Hne. rewrite Hne.
    apply Z.leb_le. unfold grace_ms in *. lia.
Qed.

Lemma registered_session_expiry_witness :
  expires_at first_info = Some (started_at first_info + 10 * 60000) /\
  is_expired 600199 {| info := first_info; thread := {| exit_at := None |} |} = false /\
  is_expired 600200 {| info := first_info; thread := {| exit_at := None |} |} = true.
Proof.
  assert (Hs : start_stream 10 "s1" 0 true camera_request empty_service
               = (inr first_info, snd first_start)) by (vm_compute; reflexivity).
  destruct (registered_session_expiry 10 "s1" 0 true camera_request empty_service
              first_info (snd first_start) Hs) as (_ & _ & _ & _ & Hexp & _).
  destruct Hexp as [He Hiff]; [discriminate|].
  split; [exact He|]. split; [reflexivity|]. apply Hiff. reflexivity.
Defined.

(** X17.  Starting a session under a fresh id and then stopping it gives back
    the registry as it was: [stop_stream] finds the entry and returns true,
    no other entry has changed, and a second [stop_stream] for the same id
    finds nothing and returns false. *)
Theorem stop_after_start_restores_registry
    (default_lifetime : Z) (new_id : string) (now : Z) (open_ok : bool)
    (req : StreamStartRequest) (svc : StreamManagerService)
    (stream_info : ActiveStreamInfo) (svc' : StreamManagerService) (t : Z)
    (Hfresh : active_streams svc !! new_id = None)
    (Hstart : start_stream default_lifetime new_id now open_ok req svc = (inr stream_info, svc')) :
  (stop_stream t new_id (active_streams svc')).1.1 = true /\
  (stop_stream t new_id (active_streams svc')).2 = active_streams svc /\
  (forall other, other <> new_id ->
     active_streams svc' !! other = active_streams svc !! other) /\
  stop_stream t new_id (stop_stream t new_id (active_streams svc')).2
    = (false, false, active_streams svc).
Proof.
  apply start_stream_registers in Hstart as [_ [th ->]].
  assert (Hstop : (stop_stream t new_id
                     (<[new_id := {| info := stream_info; thread := th |}]> (active_streams svc))).2
                  = active_streams svc).
  { rewrite stop_stream_deletes. rewrite delete_insert_eq. apply delete_id. exact Hfresh. }
  split; [|split; [exact Hstop|split]].
  - unfold stop_stream. rewrite lookup_insert_eq. reflexivity.
  - intros other Hne. apply lookup_insert_ne. congruence.
  - rewrite Hstop. unfold stop_stream. rewrite Hfresh. reflexivity.
Qed.

Lemma stop_after_start_restores_registry_witness :
  (stop_stream 5000 "s1" (active_streams (snd first_start))).1.1 = true /\
  (stop_stream 5000 "s1" (active_streams (snd first_start))).2 = ∅.
Proof.
  assert (Hs : start_stream 10 "s1" 0 true camera_request empty_service
               = (inr first_info, snd first_start)) by (vm_compute; reflexivity).
  destruct (stop_after_start_restores_registry 10 "s1" 0 true camera_request empty_service
              first_info (snd first_start) 5000 eq_refl Hs) as (H1 & H2 & _).
  split; [exact H1|exact H2].
Defined.

Lemma foldr_delete_stop_each now ids (m : gmap string StreamContext) :
  foldr (fun sid m => delete sid m) m ids = stop_each now ids m.
Proof.
  unfold stop_each. induction ids as [|i ids IH]; simpl; [reflexivity|].
  rewrite stop_stream_deletes, IH. reflexivity.
Qed.

(** X18.  [get_all_active_streams_info] at time [now] returns the descriptors of
    exactly the registered sessions whose driver thread is alive, one per
    session, removes every entry whose thread is dead, and keeps the others
    unchanged; called again at the same time it removes nothing more. *)
Theorem listing_reports_live_sessions (now : Z) (m : gmap string StreamContext) :
  (get_all_active_streams_info now m).2 =
    filter (fun kv : string * StreamContext => is_alive (thread kv.2) now = true) m /\
  (forall i, i ∈ (get_all_active_streams_info now m).1 <->
     exists sid ctx, m !! sid = Some ctx /\ is_alive (thread ctx) now = true /\ info ctx = i) /\
  length (get_all_active_streams_info now m).1 =
    size (get_all_active_streams_info now m).2 /\
  (get_all_active_streams_info now (get_all_active_streams_info now m).2).2 =
    (get_all_active_streams_info now m).2.
Proof.
  assert (Hreg : forall m : gmap string StreamContext,
            (get_all_active_streams_info now m).2 =
            filter (fun kv : string * StreamContext => is_alive (thread kv.2) now = true) m).
  { intros m0. unfold get_all_active_streams_info. simpl.
    rewrite (foldr_delete_stop_each now). apply map_eq. intros sid.
    rewrite stop_each_lookup.
    destruct (decide (sid ∈ keys_where (fun ctx => negb (is_alive (thread ctx) now)) m0))
      as [H|H].
    - apply elem_of_keys_where in H as (ctx & Hm & Hd). symmetry.
      apply map_lookup_filter_None. right. intros x Hx. simpl.
      rewrite Hm in Hx. injection Hx as <-. destruct (is_alive (thread ctx) now); [discriminate|].
      discriminate.
    - destruct (m0 !! sid) as [ctx|] eqn:E.
      + symmetry. apply map_lookup_filter_Some. split; [exact E|]. simpl.
        destruct (is_alive (thread ctx) now) eqn:Ea; [reflexivity|].
        exfalso. apply H. apply elem_of_keys_where. exists ctx. rewrite Ea. auto.
      + symmetry. apply map_lookup_filter_None. left. exact E. }
  split; [apply Hreg|]. split; [|split].
  - intros i. unfold get_all_active_streams_info. simpl.
    rewrite list_elem_of_fmap. split.
    + intros ([sid ctx] & -> & Hin). apply list_elem_of_filter in Hin as [Ha Hin].
      apply elem_of_map_to_list in Hin. eauto.
    + intros (sid & ctx & Hm & Ha & <-). exists (sid, ctx). split; [reflexivity|].
      apply list_elem_of_filter. split; [exact Ha|]. apply elem_of_map_to_list. exact Hm.
  - rewrite Hreg. unfold get_all_active_streams_info. simpl.
    rewrite length_fmap, <- length_map_to_list.
    apply Permutation_length. apply NoDup_Permutation.
    + apply NoDup_filter. apply NoDup_map_to_list.
    + apply NoDup_map_to_list.
    + intros [sid ctx]. rewrite list_elem_of_filter, !elem_of_map_to_list.
      rewrite map_lookup_filter_Some. simpl. tauto.
  - rewrite !Hreg. apply map_filter_filter_l. auto.
Qed.

End RegistryProperties.

(** ** More on the running pipeline *)

Section PipelineMore.

Import ModelManager.
Import Queue.
Import Pipeline.

Context {Frame Dets Bytes : Type}.

Local Notation "'World'" := (@Pipeline.World Frame Dets Bytes).
Local Notation "'Event'" := (@Pipeline.Event Frame Bytes).
Local Notation "'Actor'" := (@Pipeline.Actor Frame Dets Bytes).

(** X8.  In every state a session can reach, none of its four queues holds more
    than 30 items. *)
Theorem every_queue_bounded
    (p : ModelPool) (isdigit : bool) (sched : list Actor) (w : World) (tr : list Event)
    (Hrun : run sched (new_world p isdigit []) = Some (w, tr)) :
  length (preprocess_queue (eng w)) <= 30 /\
  length (inference_queue (eng w)) <= 30 /\
  length (postprocess_queue (eng w)) <= 30 /\
  length (output_queue (eng w)) <= 30.
Proof.
  apply (run_bounded sched _ w tr Hrun).
  unfold queues_bounded, maxsize. simpl. lia.
Qed.

Ltac open_world w :=
  let e := fresh "e" in
  destruct w as [? e ? ? ? ? ? ?]; destruct e; simpl in *.

Ltac step_cases :=
  repeat (simplify_eq; simpl in *;
          match goal with
          | H : context [match ?x with _ => _ end] |- _ => destruct x eqn:?
          | H : context [if ?x then _ else _] |- _ => destruct x eqn:?
          end);
  simplify_eq; simpl in *.

Ltac members :=
  intros [Hheld Hrel]; split; intros ?;
  rewrite ?app_nil_r, ?elem_of_app, ?elem_of_cons, ?elem_of_nil;
  naive_solver.

#[local] Set Warnings "-clear-no-such-hyp".

Lemma stop_step_acquired pc (w : World) pc' w' ev tr :
  stop_step pc w = Some (pc', w', ev) ->
  (forall m, models (eng w) = Some m -> EvAcquired m ∈ tr) /\
  (forall m, EvReleased m ∈ tr -> EvAcquired m ∈ tr) ->
  (forall m, models (eng w') = Some m -> EvAcquired m ∈ tr ++ ev) /\
  (forall m, EvReleased m ∈ tr ++ ev -> EvAcquired m ∈ tr ++ ev).
Proof.
  intros H. open_world w. unfold stop_step in H. simpl in H.
  destruct pc; step_cases; members.
Qed.

Lemma step_acquired (a : Actor) (w : World) tr w' ev :
  (forall m, models (eng w) = Some m -> EvAcquired m ∈ tr) /\
  (forall m, EvReleased m ∈ tr -> EvAcquired m ∈ tr) ->
  step a w = Some (w', ev) ->
  (forall m, models (eng w') = Some m -> EvAcquired m ∈ tr ++ ev) /\
  (forall m, EvReleased m ∈ tr ++ ev -> EvAcquired m ∈ tr ++ ev).
Proof.
  intros HI H. revert HI. destruct a; simpl in H.
  - open_world w. unfold reader_step, put_nowait in H. simpl in H. step_cases; members.
  - open_world w. unfold preprocessor_step, put_nowait in H. simpl in H. step_cases; members.
  - open_world w. unfold inference_step, put_nowait in H. simpl in H. step_cases; members.
  - open_world w. unfold postprocessor_step, put_nowait in H. simpl in H.
    step_cases; members.
  - unfold driver_step in H.
    destruct (driver w) eqn:Ed.
    + open_world w. unfold acquire in H. simpl in H. step_cases; members.
    + open_world w. step_cases; members.
    + open_world w. step_cases; members.
    + open_world w. step_cases; members.
    + destruct (stop_step s w) as [[[pc' w1] ev1]|] eqn:Es; [|discriminate].
      intros HI. pose proof (stop_step_acquired _ _ _ _ _ tr Es HI) as HI'.
      assert (ev = ev1 /\ eng w' = eng w1) as [-> ->]
        by (destruct pc'; simplify_eq; destruct w1; split; reflexivity).
      exact HI'.
    + discriminate.
  - unfold manager_step in H.
    destruct (manager w) eqn:Em.
    + destruct (driver_is_alive w); simplify_eq; rewrite app_nil_r; destruct w; auto.
    + destruct (stop_step s w) as [[[pc' w1] ev1]|] eqn:Es; [|discriminate].
      intros HI. pose proof (stop_step_acquired _ _ _ _ _ tr Es HI) as HI'.
      assert (ev = ev1 /\ eng w' = eng w1) as [-> ->]
        by (destruct pc'; simplify_eq; destruct w1; split; reflexivity).
      exact HI'.
    + discriminate.
  - open_world w. unfold feed_step in H. simpl in H. step_cases; members.
  - open_world w. unfold other_step, acquire, release in H. simpl in H.
    step_cases; members.
Qed.

Lemma acquired_sets_app (tr1 tr2 : list Event) :
  acquired_sets (tr1 ++ tr2) = acquired_sets tr1 ++ acquired_sets tr2.
Proof. apply omap_app. Qed.

Lemma released_sets_app (tr1 tr2 : list Event) :
  released_sets (tr1 ++ tr2) = released_sets tr1 ++ released_sets tr2.
Proof. apply omap_app. Qed.

(** A step that touches neither the driver, nor the stop flag, nor
    [self.models], and that neither acquires nor releases, keeps the
    custody bookkeeping. *)
Lemma custody_frame (w w' : World) (tr ev : list Event) :
  driver w' = driver w /\ stop_event (eng w') = stop_event (eng w) /\
  models (eng w') = models (eng w) /\ acquired_sets ev = [] /\ released_sets ev = [] ->
  custody_inv w tr -> custody_inv w' (tr ++ ev).
Proof.
  intros (Hd & Hf & Hm & Ha & Hr). unfold custody_inv.
  rewrite acquired_sets_app, released_sets_app, Hd, Hf, Hm, Ha, Hr, !app_nil_r. auto.
Qed.

Ltac framed := apply custody_frame; repeat split; reflexivity.

Ltac kept :=
  unfold custody_inv; simpl;
  rewrite ?acquired_sets_app, ?released_sets_app; simpl;
  rewrite ?app_nil_r; intros HI;
  repeat match goal with
         | H : _ /\ _ |- _ => destruct H
         end;
  try contradiction; subst; simpl in *;
  repeat match goal with
         | H : acquired_sets _ = _ |- _ => rewrite H in *
         | H : released_sets _ = _ |- _ => rewrite H in *
         end;
  simpl; repeat split; auto; try congruence;
  try match goal with
      | |- length (option_list ?h) <= 1 => destruct h; simpl; lia
      end.

(** While no [stop_stream] interferes, every step keeps the custody
    bookkeeping. *)
Lemma step_custody (a : Actor) (w : World) tr w' ev :
  driver_only_stop [a] = true ->
  custody_inv w tr -> step a w = Some (w', ev) -> custody_inv w' (tr ++ ev).
Proof.
  intros Ha HI H. revert HI. destruct a; simpl in H; try discriminate Ha; clear Ha.
  - open_world w. unfold reader_step, put_nowait in H. simpl in H. step_cases; framed.
  - open_world w. unfold preprocessor_step, put_nowait in H. simpl in H. step_cases; framed.
  - open_world w. unfold inference_step, put_nowait in H. simpl in H. step_cases; framed.
  - open_world w. unfold postprocessor_step, put_nowait in H. simpl in H.
    step_cases; framed.
  - unfold driver_step in H.
    destruct (driver w) as [| | | |s|] eqn:Ed.
    + open_world w. unfold acquire in H. simpl in H. step_cases; kept.
    + open_world w. step_cases; kept.
    + open_world w. step_cases; kept.
    + open_world w. step_cases; kept.
    + open_world w. unfold stop_step in H. simpl in H.
      destruct s; step_cases; kept.
    + discriminate.
  - open_world w. unfold feed_step in H. simpl in H. step_cases; framed.
  - open_world w. unfold other_step, acquire, release in H. simpl in H.
    step_cases; framed.
Qed.

Lemma run_custody (sched : list Actor) : forall (w : World) tr w' ev,
  driver_only_stop sched = true ->
  custody_inv w tr -> run sched w = Some (w', ev) -> custody_inv w' (tr ++ ev).
Proof.
  induction sched as [|a sched IH]; intros w tr w' ev Hown HI; simpl.
  - intros [= <- <-]. rewrite app_nil_r. exact HI.
  - destruct (step a w) as [[w1 ev1]|] eqn:E1; [|discriminate].
    destruct (run sched w1) as [[w2 ev2]|] eqn:E2; [|discriminate].
    intros [= <- <-]. rewrite app_assoc.
    unfold driver_only_stop in Hown. simpl in Hown. apply andb_true_iff in Hown as [Ha Hs].
    eapply IH; [exact Hs| |exact E2].
    eapply step_custody; [|exact HI|exact E1].
    unfold driver_only_stop. simpl. rewrite Ha. reflexivity.
Qed.

(** X9.  Custody of the model set while [stop_stream] is never called for
    the session, so that [stop] is run by the driver thread alone (lines 102
    and 103 then read the same [self.models]; with a second caller of [stop]
    they need not).  In every such run whatever the engine holds in
    [self.models] came from the pool and every set released was acquired
    before; the session acquires at most one set; what it has released is an
    initial part of what it has acquired, so no set is released twice; and
    once the driver has ended everything acquired has been released and
    [self.models] is empty. *)
Theorem released_sets_were_acquired
    (p : ModelPool) (isdigit : bool) (sched : list Actor) (w : World) (tr : list Event)
    (Hown : driver_only_stop sched = true)
    (Hrun : run sched (new_world p isdigit []) = Some (w, tr)) :
  (forall m, models (eng w) = Some m -> EvAcquired m ∈ tr) /\
  (forall m, EvReleased m ∈ tr -> EvAcquired m ∈ tr) /\
  length (acquired_sets tr) <= 1 /\
  released_sets tr `prefix_of` acquired_sets tr /\
  (driver w = D_end -> models (eng w) = None /\ released_sets tr = acquired_sets tr).
Proof.
  assert (Hmem : (forall m, models (eng w) = Some m -> EvAcquired m ∈ tr) /\
                 (forall m, EvReleased m ∈ tr -> EvAcquired m ∈ tr)).
  { apply (run_invariant
             (fun w tr => (forall m, models (eng w) = Some m -> EvAcquired m ∈ tr) /\
                          (forall m, EvReleased m ∈ tr -> EvAcquired m ∈ tr))
             step_acquired sched (new_world p isdigit []) [] w tr); [|exact Hrun].
    split; intros m H; [discriminate H|inversion H]. }
  destruct Hmem as [Hheld Hrel].
  split; [exact Hheld|]. split; [exact Hrel|].
  assert (HI : custody_inv w tr).
  { apply (run_custody sched (new_world p isdigit []) [] w tr Hown); [|exact Hrun].
    unfold custody_inv. simpl. auto. }
  unfold custody_inv in HI.
  destruct (driver w) as [| | | |s|]; [| | | |destruct s|]; simpl in HI;
    try contradiction;
    repeat match goal with
           | H : _ /\ _ |- _ => destruct H
           end;
    repeat match goal with
           | H : acquired_sets tr = _ |- _ => rewrite H in *
           | H : released_sets tr = _ |- _ => rewrite H in *
           end;
    (split; [try (destruct (models (eng w)); simpl; lia); try assumption; simpl; lia|]);
    (split; [first [apply prefix_nil | reflexivity]|]);
    intros; try discriminate; auto.
Qed.

Lemma run_app (l1 l2 : list Actor) (w : World) :
  run (l1 ++ l2) w =
    match run l1 w with
    | Some (w1, ev1) =>
        match run l2 w1 with
        | Some (w2, ev2) => Some (w2, ev1 ++ ev2)
        | None => None
        end
    | None => None
    end.
Proof.
  revert w. induction l1 as [|a l1 IH]; intros w; simpl.
  - destruct (run l2 w) as [[w2 ev2]|]; reflexivity.
  - destruct (step a w) as [[w1 ev1]|]; [|reflexivity].
    rewrite IH. destruct (run l1 w1) as [[w1' ev1']|]; [|reflexivity].
    destruct (run l2 w1') as [[w2 ev2]|]; [|reflexivity].
    rewrite app_assoc. reflexivity.
Qed.

(** X10.  When [start] cannot go on, it cleans up after itself.  If the source
    does not open, the driver gives the set it took back to the pool (at the
    back of the queue), starts no stage thread and terminates; if no set
    becomes available, it terminates with the pool untouched and without
    ever opening the source. *)
Theorem start_aborts_cleanly
    (size : nat) (m : ResourceSet) (rest : list ResourceSet) (isdigit : bool)
    (Hroom : length rest < size) :
  run (replicate 11 (ADriver false : Actor))
      (new_world {| pool_size := size; _pool := m :: rest |} isdigit [])
    = Some ({| model_pool := {| pool_size := size; _pool := rest ++ [m] |};
               eng := {| video_source_isdigit := isdigit; models := None;
                         stop_event := true; cap := Some false; threads := [];
                         preprocess_queue := []; inference_queue := [];
                         postprocess_queue := []; output_queue := [] |};
               reader := R_idle; preprocessor := P_idle; inference := I_idle;
               postprocessor := O_idle; driver := D_end; manager := M_idle |},
            [EvAcquired m; EvReleased m]) /\
  run (replicate 9 (ADriver true : Actor))
      (new_world {| pool_size := size; _pool := [] |} isdigit [])
    = Some ({| model_pool := {| pool_size := size; _pool := [] |};
               eng := {| video_source_isdigit := isdigit; models := None;
                         stop_event := true; cap := None; threads := [];
                         preprocess_queue := []; inference_queue := [];
                         postprocess_queue := []; output_queue := [] |};
               reader := R_idle; preprocessor := P_idle; inference := I_idle;
               postprocessor := O_idle; driver := D_end; manager := M_idle |},
            []).
Proof.
  split; [|vm_compute; reflexivity].
  change (replicate 11 (ADriver false : Actor))
    with (replicate 9 (ADriver false : Actor) ++ replicate 2 (ADriver false : Actor)).
  rewrite run_app.
  replace (run (replicate 9 (ADriver false : Actor))
             (new_world {| pool_size := size; _pool := m :: rest |} isdigit []))
    with (Some ({| model_pool := {| pool_size := size; _pool := rest |};
                   eng := {| video_source_isdigit := isdigit; models := Some m;
                             stop_event := true; cap := Some false; threads := [];
                             preprocess_queue := []; inference_queue := [];
                             postprocess_queue := []; output_queue := [] |};
                   reader := R_idle; preprocessor := P_idle; inference := I_idle;
                   postprocessor := O_idle; driver := D_finally S_models;
                   manager := M_idle |} : World,
                [EvAcquired m : Event]))
    by (vm_compute; reflexivity).
  unfold run, step, driver_step, stop_step. cbn -[release].
  unfold release, qsize. cbn [_pool pool_size].
  destruct (decide (length rest < size)); [reflexivity|contradiction].
Qed.

End PipelineMore.

Section PipelineMoreExamples.

Import ModelManager.
Import Queue.
Import Pipeline.
Import Scenarios.

Lemma every_queue_bounded_witness :
  length (preprocess_queue (eng unread_world)) <= 30 /\
  length (inference_queue (eng unread_world)) <= 30 /\
  length (postprocess_queue (eng unread_world)) <= 30 /\
  length (output_queue (eng unread_world)) <= 30.
Proof.
  apply (every_queue_bounded one_set_pool false unread_schedule unread_world unread_trace).
  vm_compute. reflexivity.
Defined.

Lemma released_sets_were_acquired_witness :
  EvAcquired (1, 2) ∈ watched_trace /\
  acquired_sets watched_trace = [(1, 2)] /\
  released_sets watched_trace = [(1, 2)] /\
  models (eng watched_world) = None.
Proof.
  assert (Hrun : run watched_schedule file_world = Some (watched_world, watched_trace))
    by (vm_compute; reflexivity).
  destruct (released_sets_were_acquired one_set_pool false watched_schedule
              watched_world watched_trace eq_refl Hrun) as (_ & Hrel & _ & _ & Hend).
  destruct (Hend eq_refl) as [Hnone Heq].
  split; [|split; [reflexivity|split; [exact Heq|exact Hnone]]].
  apply Hrel.
  unfold watched_trace. do 12 apply list_elem_of_further. apply list_elem_of_here.
Defined.

Lemma start_aborts_cleanly_witness :
  run (replicate 11 (ADriver false : Act)) file_world
    = Some ({| model_pool := {| pool_size := 1; _pool := [(1, 2)] |};
               eng := {| video_source_isdigit := false; models := None;
                         stop_event := true; cap := Some false; threads := [];
                         preprocess_queue := []; inference_queue := [];
                         postprocess_queue := []; output_queue := [] |};
               reader := R_idle; preprocessor := P_idle; inference := I_idle;
               postprocessor := O_idle; driver := D_end; manager := M_idle |},
            [EvAcquired (1, 2); EvReleased (1, 2)]).
Proof.
  apply (start_aborts_cleanly (Frame := nat) (Dets := unit) (Bytes := nat) 1 (1, 2) [] false).
  simpl. lia.
Defined.

Lemma stop_twice_witness :
  stop (fun _ => false) busy_engine_stopped returned_pool
    = Some (busy_engine_stopped, returned_pool).
Proof.
  apply (stop_twice (fun _ => true) (fun _ => false) busy_engine busy_engine_stopped
           lent_pool returned_pool).
  reflexivity.
Defined.

Lemma stop_releases_owned_set_witness :
  exists e',
    stop (fun _ => true) busy_engine lent_pool
      = Some (e', {| pool_size := 1; _pool := [] ++ [(1, 2)] |}) /\
    models e' = None /\ stop_event e' = true.
Proof.
  apply (stop_releases_owned_set (fun _ => true) busy_engine lent_pool (1, 2)).
  - reflexivity.
  - reflexivity.
  - unfold qsize. simpl. lia.
Defined.

End PipelineMoreExamples.

(** ** Stage 4: what the recognition results are *)

Section RecognizeProperties.

Import ImageUtils.
Import Postprocess.

Context {Embedding : Type}.

Variable estimateAffinePartial2D : list Point -> list Point -> Matrix * option (list bool).
Variable warpAffine : ndarray -> Matrix -> Z * Z -> option ndarray.
Variable predict_batch : list ndarray -> option (list Embedding).
Variable search : Embedding -> Q -> Result (option (string * string * Q)).

Lemma align_faces_meta frame dets faces meta :
  snd (align_faces estimateAffinePartial2D warpAffine frame dets) = Ok (faces, meta) ->
  meta `sublist_of` filter (fun fd => has_five_landmarks fd = true) dets /\
  length faces = length meta.
Proof.
  revert faces meta. induction dets as [|fd dets IH]; intros faces meta; simpl.
  - intros [= <- <-]. split; [constructor|reflexivity].
  - destruct (length (landmarks fd) =? 5) eqn:E.
    + rewrite filter_cons_True by exact E.
      destruct (align_and_crop estimateAffinePartial2D warpAffine frame (landmarks fd) 112)
        as [[a M]|e]; [|discriminate].
      destruct (align_faces estimateAffinePartial2D warpAffine frame dets) as [calls r].
      simpl in *. destruct r as [[faces' meta']|e]; [|discriminate].
      destruct (IH _ _ eq_refl) as [Hs Hl]. simpl.
      destruct (0 <? size a)%Z; intros [= <- <-].
      * split; [apply sublist_skip; exact Hs|simpl; congruence].
      * split; [apply sublist_cons; exact Hs|exact Hl].
    + rewrite filter_cons_False
        by (unfold has_five_landmarks; rewrite E; discriminate).
      apply IH.
Qed.

Lemma match_faces_items threshold embeddings meta items :
  match_faces search threshold embeddings meta = Ok items ->
  map box items = map (fun fd => map int_of (bbox fd)) (take (length embeddings) meta) /\
  length items = length embeddings /\
  length embeddings <= length meta /\
  Forall (fun it => (similarity it = None /\ sn it = None /\ name it = "Unknown"%string) \/
                    (exists s sim, sn it = Some s /\ similarity it = Some sim))
         items.
Proof.
  revert meta items. induction embeddings as [|emb embeddings IH]; intros meta items; simpl.
  - intros [= <-]. repeat split; [lia|constructor].
  - destruct meta as [|fd meta]; [discriminate|].
    destruct (search emb threshold) as [res|e]; [|discriminate]. simpl.
    destruct (match_faces search threshold embeddings meta) as [items'|e] eqn:Em;
      [|destruct res as [[[? ?] ?]|]; discriminate].
    destruct (IH _ _ Em) as (Hb & Hl & Hle & Hf).
    destruct res as [[[n s] sim]|]; simpl; intros [= <-]; simpl;
      (split; [f_equal; exact Hb|]); (split; [congruence|]); (split; [lia|]);
      (constructor; [|exact Hf]).
    + right. simpl. exists s, sim. split; reflexivity.
    + left. simpl. repeat split; reflexivity.
Qed.

(** X6.  When the recognition of a frame succeeds, the results follow the
    detections: their boxes are, in order, boxes (truncated to integers) of
    detections with exactly five landmarks, so there are never more results
    than such detections; and each result either carries the serial number
    and the similarity of a registered person, or is called Unknown and
    carries neither. *)
Theorem recognition_results_follow_detections
    (has_rec_model : bool) (threshold : Q) (frame : ndarray)
    (dets : list FaceData) (items : list ResultItem)
    (Hok : recognize estimateAffinePartial2D warpAffine predict_batch search
             has_rec_model threshold frame dets = Ok items) :
  map box items `sublist_of`
    map (fun fd => map int_of (bbox fd))
        (filter (fun fd => has_five_landmarks fd = true) dets) /\
  length items <= length (filter (fun fd => has_five_landmarks fd = true) dets) /\
  Forall (fun it => (similarity it = None /\ sn it = None /\ name it = "Unknown"%string) \/
                    (exists s sim, sn it = Some s /\ similarity it = Some sim))
         items.
Proof.
  revert Hok. unfold recognize.
  destruct (bool_decide (dets <> []) && has_rec_model).
  2:{ intros [= <-]. simpl. repeat split; [apply sublist_nil_l|lia|constructor]. }
  destruct (snd (align_faces estimateAffinePartial2D warpAffine frame dets))
    as [[faces meta]|e] eqn:Ea; [|discriminate].
  apply align_faces_meta in Ea as [Hsub Hlen]. simpl.
  destruct faces as [|f faces].
  { intros [= <-]. simpl. repeat split; [apply sublist_nil_l|lia|constructor]. }
  destruct (predict_batch (f :: faces)) as [embs|]; [|discriminate]. simpl.
  intros Hm. apply match_faces_items in Hm as (Hb & Hl & Hle & Hf).
  split; [|split; [|exact Hf]].
  - rewrite Hb. apply (fmap_sublist (fun fd => map int_of (bbox fd))).
    etransitivity; [apply sublist_take|exact Hsub].
  - apply sublist_length in Hsub. lia.
Qed.

End RecognizeProperties.

Section RecognizeExamples.

Import ImageUtils.
Import Postprocess.
Import Scenarios.

Lemma recognition_results_follow_detections_witness :
  recognize sample_estimate sample_warp sample_predict_batch sample_search
    true 0.5%Q sample_image sample_faces
    = Ok [ {| box := [10; 20; 110; 140]%Z; name := "Unknown"; sn := None;
              similarity := None |} ] /\
  length [ {| box := [10; 20; 110; 140]%Z; name := "Unknown"; sn := None;
              similarity := None |} ] <=
    length (filter (fun fd => has_five_landmarks fd = true) sample_faces).
Proof.
  assert (Hok : recognize sample_estimate sample_warp sample_predict_batch sample_search
                  true 0.5%Q sample_image sample_faces
                = Ok [ {| box := [10; 20; 110; 140]%Z; name := "Unknown"; sn := None;
                          similarity := None |} ])
    by (vm_compute; reflexivity).
  split; [exact Hok|].
  apply (recognition_results_follow_detections sample_estimate sample_warp
           sample_predict_batch sample_search true 0.5%Q sample_image sample_faces _ Hok).
Defined.

End RecognizeExamples.

(** ** The still-image service *)

Section FaceOperationProperties.

Import ModelManager.
Import ImageUtils.
Import Postprocess.
Import FaceOperation.

Context {Bytes Embedding Record_ FaceInfo : Type}.

Variable estimateAffinePartial2D : list Point -> list Point -> Matrix * option (list bool).
Variable warpAffine : ndarray -> Matrix -> Z * Z -> option ndarray.
Variable imdecode : Bytes -> option ndarray.
Variable predict_detection : DeGirumModel -> ndarray -> Result (list FaceData).
Variable predict : DeGirumModel -> ndarray -> Result Embedding.
Variable predict_batch : DeGirumModel -> list ndarray -> option (list Embedding).
Variable search : Embedding -> Q -> Result (option (string * string * Q)).
Variable threshold : Q.
Variable crop : ndarray -> Z -> Z -> Z -> Z -> ndarray.
Variable imwrite : ndarray -> string -> Result (string * bool).
Variable table_add : string -> string -> Embedding -> string -> Result Record_.
Variable model_validate : Record_ -> Result FaceInfo.

Local Notation "'register'" :=
  (register_face estimateAffinePartial2D warpAffine imdecode predict_detection predict
     crop imwrite table_add model_validate).
Local Notation "'recognize_image'" :=
  (recognize_face (Bytes := Bytes) estimateAffinePartial2D warpAffine imdecode
     predict_detection predict_batch search threshold).

Lemma release_after_acquire (p : ModelPool) m rest :
  qsize p <= pool_size p -> _pool p = m :: rest ->
  exists p',
    release m {| pool_size := pool_size p; _pool := rest |} = Some p' /\
    pool_size p' = pool_size p /\ _pool p' ≡ₚ _pool p.
Proof.
  intros Hp E. unfold qsize in Hp. rewrite E in Hp. simpl in Hp.
  unfold release, qsize. simpl.
  destruct (decide (length rest < pool_size p)) as [_|Hn]; [|lia].
  eexists. split; [reflexivity|]. split; [reflexivity|].
  simpl. rewrite E. symmetry. apply Permutation_cons_append.
Qed.

(** X19.  Both requests of the still-image service give back the set they
    borrowed, however they end: on a pool that holds no more sets than its
    size, the call leaves a pool of the same size with the same sets (the
    borrowed one has moved to the back of the queue), and the release never
    blocks.  On an empty pool both end in status 503 and the pool is the
    one they found. *)
Theorem borrowed_set_is_returned
    (name sn : string) (image_bytes : Bytes) (p : ModelPool)
    (Hp : qsize p <= pool_size p) :
  (exists p', snd (register name sn image_bytes p) = Some p' /\
              pool_size p' = pool_size p /\ _pool p' ≡ₚ _pool p) /\
  (exists p', snd (recognize_image image_bytes p) = Some p' /\
              pool_size p' = pool_size p /\ _pool p' ≡ₚ _pool p) /\
  (_pool p = [] ->
   register name sn image_bytes p = (Fail (HTTPException 503), Some p) /\
   recognize_image image_bytes p = (Fail (HTTPException 503), Some p)).
Proof.
  unfold register_face, recognize_face, acquire.
  destruct (_pool p) as [|m rest] eqn:E; simpl.
  - repeat split; try (exists p; rewrite E; repeat split; reflexivity).
  - destruct (release_after_acquire p m rest Hp E) as (p' & Hr & Hs & Hperm).
    rewrite E in Hperm.
    split; [exists p'; auto|]. split; [exists p'; auto|]. discriminate.
Qed.

(** X20.  [register_face] hands the landmarks of the single detected face to
    [align_and_crop] without looking at their number: a face with a number
    of landmarks other than 5 ends the request in the [AssertionError] of
    [align_and_crop], where [recognize_face] on the same image skips the
    face and returns the empty list. *)
Theorem register_face_needs_five_landmarks
    (name sn : string) (image_bytes : Bytes) (p : ModelPool)
    (detection_model recognition_model : DeGirumModel) (rest : list ResourceSet)
    (img : ndarray) (face : FaceData)
    (Hpool : _pool p = (detection_model, recognition_model) :: rest)
    (Himg : imdecode image_bytes = Some img)
    (Hdet : predict_detection detection_model img = Ok [face])
    (Hlms : length (landmarks face) <> 5) :
  fst (register name sn image_bytes p) = Fail (Unhandled AssertionError) /\
  fst (recognize_image image_bytes p) = Return [].
Proof.
  apply Nat.eqb_neq in Hlms.
  unfold register_face, recognize_face, acquire. rewrite Hpool. simpl.
  unfold decode_image. rewrite Himg. simpl. rewrite Hdet. simpl.
  unfold align_and_crop. rewrite Hlms. simpl. split; reflexivity.
Qed.

Lemma matched_faces_match_faces embeddings : forall meta,
  match matched_faces search threshold embeddings meta with
  | Return found =>
      exists items,
        match_faces search threshold embeddings meta = Ok items /\
        map as_item found = filter (fun it => is_Some (similarity it)) items
  | Fail (Unhandled e) => match_faces search threshold embeddings meta = Raise e
  | Fail ValidationError =>
      exists fd, fd ∈ meta /\ validate_landmark (landmarks fd) = None
  | Fail (HTTPException _) => False
  end.
Proof.
  induction embeddings as [|emb embeddings IH]; intros meta; simpl.
  - exists []. split; reflexivity.
  - destruct meta as [|fd meta]; [reflexivity|].
    destruct (search emb threshold) as [res|e]; simpl; [|reflexivity].
    specialize (IH meta).
    destruct res as [[[n s] sim]|]; simpl.
    + unfold new_FaceRecognitionResult.
      destruct (validate_landmark (landmarks fd)) as [lm|] eqn:Ev; simpl.
      * destruct (matched_faces search threshold embeddings meta) as [rest|[c| |e]]; simpl.
        -- destruct IH as (items & -> & Hmap). simpl. eexists. split; [reflexivity|].
           rewrite filter_cons_True by (simpl; eauto).
           simpl. f_equal. exact Hmap.
        -- contradiction.
        -- destruct IH as (fd' & Hin & Hv). exists fd'. split; [right; exact Hin|exact Hv].
        -- rewrite IH. reflexivity.
      * exists fd. split; [left|exact Ev].
    + destruct (matched_faces search threshold embeddings meta) as [rest|[c| |e]]; simpl.
      * destruct IH as (items & -> & Hmap). simpl. eexists. split; [reflexivity|].
        rewrite filter_cons_False by (simpl; intros [? ?]; discriminate).
        exact Hmap.
      * contradiction.
      * destruct IH as (fd' & Hin & Hv). exists fd'. split; [right; exact Hin|exact Hv].
      * rewrite IH. reflexivity.
Qed.

(** X21.  What the still-image request returns, against the stream's pass
    on the same image and detections with the same recogniser and store.  A
    list returned by [recognize_face] holds exactly the entries of the
    stream's [final_results] that carry a similarity, in the same order and
    with the same box, name and serial number (the stream's entries called
    Unknown are left out).  An exception other than a validation error is
    the exception of the stream's pass.  Unlike the stream, the request can
    also end in the validation error of the [FaceRecognitionResult]
    constructor, and then some detection with five landmarks has a landmark
    coordinate that is not a whole number.  When every landmark coordinate
    is a whole number the two agree: both return, or both end in the same
    exception. *)
Theorem still_image_results_are_stream_matches
    (recognition_model : DeGirumModel) (img : ndarray) (dets : list FaceData) :
  match recognize_detections estimateAffinePartial2D warpAffine predict_batch search
          threshold recognition_model img dets with
  | Return found =>
      exists items,
        recognize estimateAffinePartial2D warpAffine (predict_batch recognition_model)
          search true threshold img dets = Ok items /\
        map as_item found = filter (fun it => is_Some (similarity it)) items
  | Fail (Unhandled e) =>
      recognize estimateAffinePartial2D warpAffine (predict_batch recognition_model)
        search true threshold img dets = Raise e
  | Fail ValidationError =>
      exists fd, fd ∈ dets /\ has_five_landmarks fd = true /\
                 validate_landmark (landmarks fd) = None
  | Fail (HTTPException _) => False
  end /\
  (Forall (fun fd => is_Some (validate_landmark (landmarks fd))) dets ->
   match recognize estimateAffinePartial2D warpAffine (predict_batch recognition_model)
           search true threshold img dets,
         recognize_detections estimateAffinePartial2D warpAffine predict_batch search
           threshold recognition_model img dets with
   | Ok items, Return found =>
       map as_item found = filter (fun it => is_Some (similarity it)) items
   | Raise e, Fail f => f = Unhandled e
   | _, _ => False
   end).
Proof.
  assert (H1 :
    match recognize_detections estimateAffinePartial2D warpAffine predict_batch search
            threshold recognition_model img dets with
    | Return found =>
        exists items,
          recognize estimateAffinePartial2D warpAffine (predict_batch recognition_model)
            search true threshold img dets = Ok items /\
          map as_item found = filter (fun it => is_Some (similarity it)) items
    | Fail (Unhandled e) =>
        recognize estimateAffinePartial2D warpAffine (predict_batch recognition_model)
          search true threshold img dets = Raise e
    | Fail ValidationError =>
        exists fd, fd ∈ dets /\ has_five_landmarks fd = true /\
                   validate_landmark (landmarks fd) = None
    | Fail (HTTPException _) => False
    end).
  { unfold recognize, recognize_detections.
    destruct dets as [|fd0 dets0]; [exists []; split; reflexivity|].
    change (bool_decide (fd0 :: dets0 <> []) && true) with true.
    cbv iota.
    destruct (snd (align_faces estimateAffinePartial2D warpAffine img (fd0 :: dets0)))
      as [[faces meta]|e] eqn:Ea; simpl; [|reflexivity].
    destruct faces as [|f faces]; [exists []; split; reflexivity|].
    destruct (predict_batch recognition_model (f :: faces)) as [embs|]; simpl;
      [|reflexivity].
    pose proof (matched_faces_match_faces embs meta) as H.
    destruct (matched_faces search threshold embs meta) as [found|[c| |e]];
      [exact H|exact H| |exact H].
    destruct H as (fd & Hin & Hv).
    apply (align_faces_meta estimateAffinePartial2D warpAffine) in Ea as [Hsub _].
    pose proof (elem_of_sublist _ _ _ Hin Hsub) as Hf.
    apply list_elem_of_filter in Hf as [Hfive Hd].
    exists fd. auto. }
  split; [exact H1|].
  intros Hall.
  destruct (recognize_detections estimateAffinePartial2D warpAffine predict_batch search
              threshold recognition_model img dets) as [found|[c| |e]].
  - destruct H1 as (items & -> & Hmap). exact Hmap.
  - contradiction.
  - destruct H1 as (fd & Hin & _ & Hv).
    rewrite Forall_forall in Hall. destruct (Hall fd Hin) as [lm Hlm]. congruence.
  - rewrite H1. reflexivity.
Qed.

End FaceOperationProperties.

Section FaceDaoProperties.

Import ImageUtils.
Import Postprocess.

Context {Embedding : Type}.

Variable estimateAffinePartial2D : list Point -> list Point -> Matrix * option (list bool).
Variable warpAffine : ndarray -> Matrix -> Z * Z -> option ndarray.
Variable predict_batch : list ndarray -> option (list Embedding).
Variable count_rows : Result nat.
Variable nearest : Embedding -> Result (list FaceDao.Neighbour).

Local Notation "'dao_search'" :=
  (fun e t => Ok (FaceDao.search count_rows nearest e t)).

Lemma search_reaches_threshold emb threshold n s sim :
  FaceDao.search count_rows nearest emb threshold = Some (n, s, sim) ->
  (threshold <= sim)%Q /\
  exists best rest, nearest emb = Ok (best :: rest) /\
                    sim = (1 - FaceDao._distance best)%Q /\
                    n = FaceDao.nb_name best /\ s = FaceDao.nb_sn best.
Proof.
  unfold FaceDao.search.
  destruct count_rows as [[|k]|e]; try discriminate.
  destruct (nearest emb) as [[|best rest]|e]; try discriminate.
  destruct (Qle_bool threshold (1 - FaceDao._distance best)) eqn:E; [|discriminate].
  intros [= <- <- <-]. split; [apply Qle_bool_iff; exact E|].
  exists best, rest. repeat split; reflexivity.
Qed.

Lemma match_faces_reach_threshold threshold embeddings meta items :
  match_faces dao_search threshold embeddings meta = Ok items ->
  Forall (fun it => match similarity it with
                    | Some sim => (threshold <= sim)%Q
                    | None => name it = "Unknown"%string
                    end) items.
Proof.
  revert meta items. induction embeddings as [|emb embeddings IH]; intros meta items; simpl.
  - intros [= <-]. constructor.
  - destruct meta as [|fd meta]; [discriminate|].
    destruct (match_faces dao_search threshold embeddings meta) as [items'|e] eqn:Em;
      simpl; [|discriminate].
    specialize (IH _ _ Em).
    destruct (FaceDao.search count_rows nearest emb threshold) as [[[n s] sim]|] eqn:Es;
      intros [= <-]; (constructor; [simpl|exact IH]).
    + apply search_reaches_threshold in Es. tauto.
    + reflexivity.
Qed.

(** X22.  With the store's [search] behind it, the stream never names a face
    below the threshold: in the results of a pass every entry with a
    similarity has one at or above the configured threshold, and every
    entry without one is called Unknown.  The store itself never raises. *)
Theorem named_results_reach_threshold
    (has_rec_model : bool) (threshold : Q) (frame : ndarray)
    (dets : list FaceData) (items : list ResultItem)
    (Hok : recognize estimateAffinePartial2D warpAffine predict_batch dao_search
             has_rec_model threshold frame dets = Ok items) :
  Forall (fun it => match similarity it with
                    | Some sim => (threshold <= sim)%Q
                    | None => name it = "Unknown"%string
                    end) items.
Proof.
  revert Hok. unfold recognize.
  destruct (bool_decide (dets <> []) && has_rec_model); [|intros [= <-]; constructor].
  destruct (snd (align_faces estimateAffinePartial2D warpAffine frame dets))
    as [[faces meta]|e]; [|discriminate]. simpl.
  destruct faces as [|f faces]; [intros [= <-]; constructor|].
  destruct (predict_batch (f :: faces)) as [embs|]; [|discriminate]. simpl.
  apply match_faces_reach_threshold.
Qed.

End FaceDaoProperties.

Section FaceOperationExamples.

Import ModelManager.
Import ImageUtils.
Import Postprocess.
Import FaceOperation.
Import Scenarios.

Lemma borrowed_set_is_returned_witness :
  exists p',
    snd (register_face sample_estimate sample_warp still_decode still_detect still_predict
           still_crop still_imwrite still_table_add still_validate
           "Ann" "sn1" 7 sample_pool) = Some p' /\
    pool_size p' = pool_size sample_pool /\ _pool p' ≡ₚ _pool sample_pool.
Proof.
  apply (borrowed_set_is_returned sample_estimate sample_warp still_decode still_detect
           still_predict still_predict_batch ann_search 0.5%Q still_crop still_imwrite
           still_table_add still_validate "Ann" "sn1" 7 sample_pool).
  unfold qsize. simpl. lia.
Defined.

Lemma register_face_needs_five_landmarks_witness :
  fst (register_face sample_estimate sample_warp still_decode still_detect still_predict
         still_crop still_imwrite still_table_add still_validate
         "Ann" "sn1" 7 sample_pool) = Fail (Unhandled AssertionError) /\
  fst (recognize_face sample_estimate sample_warp still_decode still_detect
         still_predict_batch ann_search 0.5%Q 7 sample_pool) = Return [].
Proof.
  apply (register_face_needs_five_landmarks sample_estimate sample_warp still_decode
           still_detect still_predict still_predict_batch ann_search 0.5%Q still_crop
           still_imwrite still_table_add still_validate "Ann" "sn1" 7 sample_pool
           1 2 [(3, 4)] sample_image profile_face).
  - reflexivity.
  - reflexivity.
  - reflexivity.
  - simpl. lia.
Defined.

(** The validation error is real: for a face whose first landmark lies
    between two pixels and which the store knows, the stream's pass names
    the face while [recognize_face] ends in the validation error; the set
    it borrowed is back in the pool. *)
Lemma still_image_rejects_subpixel_landmark :
  recognize sample_estimate sample_warp sample_predict_batch ann_search
    true 0.5%Q sample_image subpixel_faces
    = Ok [ {| box := [10; 20; 110; 140]%Z; name := "Ann"; sn := Some "sn1"%string;
              similarity := Some (1 - 0.2)%Q |} ] /\
  recognize_face sample_estimate sample_warp still_decode
    (fun _ _ => Ok subpixel_faces) still_predict_batch ann_search 0.5%Q 7 sample_pool
    = (Fail ValidationError, Some {| pool_size := 2; _pool := [(3, 4); (1, 2)] |}).
Proof. split; vm_compute; reflexivity. Qed.

Lemma named_results_reach_threshold_witness :
  exists items,
    ann_results = Ok items /\ length items = 1 /\
    Forall (fun it => match similarity it with
                      | Some sim => (0.5 <= sim)%Q
                      | None => name it = "Unknown"%string
                      end) items.
Proof.
  unfold ann_results. eexists. split; [reflexivity|]. split; [reflexivity|].
  apply (named_results_reach_threshold sample_estimate sample_warp sample_predict_batch
           one_row near_ann true 0.5%Q sample_image sample_faces).
  vm_compute. reflexivity.
Defined.

End FaceOperationExamples.
